(** * Metadata extraction of the research-paper analyzer (src/app.py)

    A shallow embedding of [extract_metadata] and of the Python primitives
    it calls ([str.split], [str.strip], [str.replace], [str.join],
    [list.index], [in], indexing, slicing and [re.search]), followed by the
    properties of the extractor.

    Text is a list of characters; a character is one of the 256 code points
    below U+0100, and the classification tables ([str.isspace], [str.isupper],
    the classes [\s] and [\d], case-insensitive literals) are Python's tables
    restricted to that range.  Operations of Python that can raise are
    embedded in an exception monad. *)

From Stdlib Require Import List Ascii Arith Bool Lia.
From Stdlib Require String.
Import ListNotations String.StringSyntax.

Local Open Scope string_scope.

(** ** Exceptions *)

Inductive pyexn : Type :=
| IndexError
| ValueError
| AttributeError.

Inductive result (A : Type) : Type :=
| Ok (a : A)
| Raise (e : pyexn).

Arguments Ok {A} a.
Arguments Raise {A} e.

Definition bind {A B : Type} (x : result A) (k : A -> result B) : result B :=
  match x with
  | Ok a => k a
  | Raise e => Raise e
  end.

Notation "x <- c1 ;; c2" := (bind c1 (fun x => c2))
  (at level 61, c1 at next level, right associativity).

(** ** Python strings and lists *)

Module Py.

(** A Python string: its characters in order. *)
Abbreviation str := (list ascii).

(** A string literal of the source. *)
Definition lit (x : String.string) : str := String.list_ascii_of_string x.

(** The newline character, written '\n' in the source. *)
Definition NL : ascii := ascii_of_nat 10.

Definition between (lo hi : nat) (c : ascii) : bool :=
  (lo <=? nat_of_ascii c) && (nat_of_ascii c <=? hi).

(** [c.isspace()], which is also the regex class [\s]. *)
Definition isspace (c : ascii) : bool :=
  between 9 13 c || between 28 32 c
  || (nat_of_ascii c =? 133) || (nat_of_ascii c =? 160).

(** The regex class [\d]. *)
Definition isdigit (c : ascii) : bool := between 48 57 c.

(** [c.isupper()] for a single character. *)
Definition isupper (c : ascii) : bool :=
  between 65 90 c || between 192 214 c || between 216 222 c.

(** Lower-casing of the letters A-Z, used to compare a pattern letter
    with a character under the flag IGNORECASE. *)
Definition lower (c : ascii) : ascii :=
  if between 65 90 c then ascii_of_nat (nat_of_ascii c + 32) else c.

Fixpoint str_eqb (a b : str) : bool :=
  match a, b with
  | [], [] => true
  | x :: a', y :: b' => Ascii.eqb x y && str_eqb a' b'
  | _, _ => false
  end.

(** [s.startswith(p)]. *)
Fixpoint startswith (p s : str) : bool :=
  match p, s with
  | [], _ => true
  | x :: p', y :: s' => Ascii.eqb x y && startswith p' s'
  | _ :: _, [] => false
  end.

(** [s.split('\n')]: every line is kept, blank ones too, and the empty
    string gives one empty line. *)
Fixpoint split_nl (s : str) : list str :=
  match s with
  | [] => [[]]
  | c :: s' =>
      if Ascii.eqb c NL then [] :: split_nl s'
      else match split_nl s' with
           | l :: ls => (c :: l) :: ls
           | [] => [[c]]
           end
  end.

Fixpoint lstrip (s : str) : str :=
  match s with
  | [] => []
  | c :: s' => if isspace c then lstrip s' else s
  end.

Definition rstrip (s : str) : str := rev (lstrip (rev s)).

(** [s.strip()]. *)
Definition strip (s : str) : str := rstrip (lstrip s).

(** [s.replace(old, new)] for a non-empty [old]: the occurrences of [old]
    are replaced from left to right and do not overlap.  [skip] counts the
    characters of the occurrence just replaced that are still to be passed
    over. *)
Fixpoint replace_from (old new : str) (skip : nat) (s : str) : str :=
  match s with
  | [] => []
  | c :: s' =>
      match skip with
      | S k => replace_from old new k s'
      | 0 =>
          if startswith old s
          then new ++ replace_from old new (length old - 1) s'
          else c :: replace_from old new 0 s'
      end
  end.

Definition replace (old new s : str) : str := replace_from old new 0 s.

(** [sep.join(xs)]. *)
Fixpoint join (sep : str) (xs : list str) : str :=
  match xs with
  | [] => []
  | [x] => x
  | x :: rest => x ++ sep ++ join sep rest
  end.

(** [x in xs]. *)
Fixpoint mem (x : str) (xs : list str) : bool :=
  match xs with
  | [] => false
  | y :: ys => str_eqb y x || mem x ys
  end.

(** [xs.index(x)], which raises ValueError when [x] is not in [xs]. *)
Fixpoint index (xs : list str) (x : str) : result nat :=
  match xs with
  | [] => Raise ValueError
  | y :: ys => if str_eqb y x then Ok 0 else i <- index ys x ;; Ok (S i)
  end.

(** [xs[i]] for a non-negative [i], which raises IndexError out of range. *)
Definition getitem {A : Type} (xs : list A) (i : nat) : result A :=
  match nth_error xs i with
  | Some x => Ok x
  | None => Raise IndexError
  end.

(** [xs[a:b]] for non-negative [a] and [b]; never raises. *)
Definition slice {A : Type} (xs : list A) (a b : nat) : list A :=
  firstn (b - a) (skipn a xs).

(** [range(a, b)]. *)
Definition range (a b : nat) : list nat := seq a (b - a).

End Py.

Import Py.

(** ** Regular expressions: Python's backtracking matcher *)

Module Re.

(** The pattern syntax the source uses.  [Chr p] is a literal or a class,
    [Star true r] is [r*], [Star false r] is [r*?], [Look r] is [(?=r)],
    [Grp r] is the capturing group 1 (each pattern of the source has one
    group at most). *)
Inductive regex : Type :=
| Eps
| Chr (p : ascii -> bool)
| Seq (r1 r2 : regex)
| Alt (r1 r2 : regex)
| Star (greedy : bool) (r : regex)
| Look (r : regex)
| Grp (r : regex).

(** [r+] and [r?]. *)
Definition Plus (r : regex) : regex := Seq r (Star true r).
Definition Opt (r : regex) : regex := Alt r Eps.

(** A literal character, and one under IGNORECASE (the pattern letters
    are lower-case ASCII letters and digits). *)
Definition Lit (c : ascii) : regex := Chr (Ascii.eqb c).
Definition LitI (c : ascii) : regex := Chr (fun x => Ascii.eqb (lower x) c).

Fixpoint word (f : ascii -> regex) (w : str) : regex :=
  match w with
  | [] => Eps
  | c :: w' => Seq (f c) (word f w')
  end.

(** The state of a match attempt: the text of group 1 (if it has been
    closed) and the text still to be read. *)
Abbreviation state := (option str * str)%type.

Definition shorter (st st' : state) : bool :=
  length (snd st') <? length (snd st).

(** The iterations of a starred pattern, in the order the backtracking
    matcher tries them: a greedy star first iterates and gives up last, a
    lazy one first stops.  An iteration must consume a character. *)
Fixpoint iterate (body : state -> list state) (greedy : bool)
    (fuel : nat) (st : state) : list state :=
  match fuel with
  | 0 => [st]
  | S fuel' =>
      let more := flat_map (iterate body greedy fuel')
                           (filter (shorter st) (body st)) in
      if greedy then more ++ [st] else st :: more
  end.

(** All the ways [r] matches at the head of the text, in backtracking
    order: the head of the list is the match the engine reports. *)
Fixpoint m (r : regex) (st : state) : list state :=
  match r with
  | Eps => [st]
  | Chr p =>
      match snd st with
      | c :: s' => if p c then [(fst st, s')] else []
      | [] => []
      end
  | Seq r1 r2 => flat_map (m r2) (m r1 st)
  | Alt r1 r2 => m r1 st ++ m r2 st
  | Star g r' => iterate (m r') g (length (snd st)) st
  | Look r' =>
      match m r' st with
      | [] => []
      | _ :: _ => [st]
      end
  | Grp r' =>
      map (fun st' =>
             (Some (firstn (length (snd st) - length (snd st')) (snd st)),
              snd st'))
          (m r' st)
  end.

(** [re.search(r, text)]: the first start position, from the left, at
    which [r] matches; the value is group 1 of the match object. *)
Fixpoint search (r : regex) (text : str) : option (option str) :=
  match m r (None, text) with
  | st :: _ => Some (fst st)
  | [] =>
      match text with
      | [] => None
      | _ :: text' => search r text'
      end
  end.

(** [match.group(1)]; calling a method on None raises AttributeError. *)
Definition group1 (g : option str) : result str :=
  match g with
  | Some s => Ok s
  | None => Raise AttributeError
  end.

End Re.

Import Re.

(** ** The extractor *)

Module App.

Definition unknown_title : str := lit "Unknown Title".
Definition unknown_authors : str := lit "Unknown Authors".
Definition abstract_not_found : str := lit "Abstract not found".

Definition ws : regex := Chr isspace.
Definition digit : regex := Chr isdigit.

(** [(?i)abstract|date|correspondence|affiliation] *)
Definition marker_re : regex :=
  Alt (word LitI (lit "abstract"))
      (Alt (word LitI (lit "date"))
           (Alt (word LitI (lit "correspondence"))
                (word LitI (lit "affiliation")))).

(** [[A-Z][a-z]+] *)
Definition cap_word : regex :=
  Seq (Chr (between 65 90)) (Plus (Chr (between 97 122))).

(** [[A-Z][a-z]+ (?: \s+ [A-Z][a-z]+ )* ] (patterns are written here with
    spaces between their parts). *)
Definition name_re : regex :=
  Seq cap_word (Star true (Seq (Plus ws) cap_word)).

(** [(?: \s* \d+ (?: , \s* \d+ )* )?] *)
Definition superscripts_re : regex :=
  Opt (Seq (Star true ws)
           (Seq (Plus digit)
                (Star true (Seq (Lit ","%char) (Seq (Star true ws) (Plus digit)))))).

(** The author pattern: one group around a name with its superscripts,
    followed by any number of [,\s*] and a further name with superscripts. *)
Definition author_re : regex :=
  Grp (Seq name_re
           (Seq superscripts_re
                (Star true
                   (Seq (Lit ","%char)
                        (Seq (Star true ws)
                             (Seq name_re superscripts_re)))))).

(** [\n\s*\d+\s+] and [\n\s*1\s+introduction], the two alternatives of
    the lookahead. *)
Definition section_re : regex :=
  Seq (Lit NL) (Seq (Star true ws) (Seq (Plus digit) (Plus ws))).

Definition intro_re : regex :=
  Seq (Lit NL)
      (Seq (Star true ws)
           (Seq (LitI "1"%char) (Seq (Plus ws) (word LitI (lit "introduction"))))).

Definition boundary_re : regex := Alt section_re intro_re.

(** [(?i)abstract \s* ( .*? ) (?= \n\s*\d+\s+ | \n\s*1\s+introduction )]
    with the flags DOTALL and IGNORECASE. *)
Definition abstract_re : regex :=
  Seq (word LitI (lit "abstract"))
      (Seq (Star true ws)
           (Seq (Grp (Star false (Chr (fun _ => true))))
                (Look boundary_re))).

(** [line.strip() and (line[0].isupper() or len(line.strip()) > 10)] *)
Definition significant (line : str) : result bool :=
  match strip line with
  | [] => Ok false
  | _ :: _ =>
      c <- getitem line 0 ;;
      Ok (isupper c || (10 <? length (strip line)))
  end.

(** [next((line.strip() for line in lines if ...), "Unknown Title")] *)
Fixpoint find_title (lines : list str) : result str :=
  match lines with
  | [] => Ok unknown_title
  | line :: rest =>
      b <- significant line ;;
      if b then Ok (strip line) else find_title rest
  end.

(** [lines.index(title.strip()) + 1 if title in lines else 0] *)
Definition start_index (lines : list str) (title : str) : result nat :=
  if mem title lines
  then i <- index lines (strip title) ;; Ok (i + 1)
  else Ok 0.

Definition has_marker (line : str) : bool :=
  match search marker_re line with
  | Some _ => true
  | None => false
  end.

(** The loop over [range(start_idx, min(start_idx + 15, len(lines)))]:
    [end_idx] is the index of the first line with a marker, and keeps its
    initial value when the loop ends without a break. *)
Fixpoint find_end (lines : list str) (indices : list nat) (end_idx : nat)
    : result nat :=
  match indices with
  | [] => Ok end_idx
  | i :: rest =>
      line <- getitem lines i ;;
      if has_marker (strip line) then Ok i
      else find_end lines rest end_idx
  end.

Definition end_index (lines : list str) (start_idx : nat) : result nat :=
  find_end lines
           (range start_idx (Nat.min (start_idx + 15) (length lines)))
           (length lines).

(** [' '.join(lines[start_idx:end_idx]).strip()] *)
Definition author_block (lines : list str) (start_idx end_idx : nat) : str :=
  strip (join (lit " ") (slice lines start_idx end_idx)).

Definition authors_of (block : str) : result str :=
  match search author_re block with
  | Some g =>
      a <- group1 g ;;
      Ok (strip (replace [NL] (lit " ") a))
  | None => Ok unknown_authors
  end.

(** [.replace('\n', '<br>').replace('  ', '&nbsp;&nbsp;')] *)
Definition render (s : str) : str :=
  replace (lit "  ") (lit "&nbsp;&nbsp;") (replace [NL] (lit "<br>") s).

Definition abstract_of (text : str) : result str :=
  a <- match search abstract_re text with
       | Some g => c <- group1 g ;; Ok (strip c)
       | None => Ok abstract_not_found
       end ;;
  Ok (render a).

Definition extract_metadata (text : str) : result (str * str * str * str) :=
  let original_text := text in
  let lines := split_nl text in
  title <- find_title lines ;;
  start_idx <- start_index lines title ;;
  end_idx <- end_index lines start_idx ;;
  authors <- authors_of (author_block lines start_idx end_idx) ;;
  abstract <- abstract_of original_text ;;
  let full_text := render original_text in
  Ok (title, authors, abstract, full_text).

End App.

Import App.

(** ** The stored paper (src/models.py) *)

Module Models.

(** A row of the table of papers; a nullable column is an option. *)
Record Paper : Type := {
  id : nat;
  title : str;
  authors : option str;
  abstract : option str;
  full_text : option str;
  summary : option str;
  key_findings : option str;
  gaps : option str;
  future_work : option str;
  pdf_path : option str
}.

End Models.

(** ** The pages that use the extractor (src/app.py) *)

Module Routes.

(** A call of [client.chat.completions.create]: the model, the content of
    the one user message, and the temperature in tenths when it is given. *)
Record request : Type := {
  model : str;
  content : str;
  temperature : option nat
}.

(** The completion service: the text of its answer to a request, which may
    depend on the requests sent before; [None] when the call, or reading
    [choices[0].message.content] as a string, raises. *)
Definition service : Type := list request -> request -> option str.

(** The table of papers and the requests sent to the service so far. *)
Record world : Type := {
  rows : list Models.Paper;
  sent : list request
}.

(** How a handler ends: with a value, with the 404 of [get_or_404], with an
    exception of the handler's own code, or with a failure of the
    completion call, which stands for every exception raised by the call
    or by reading the content of its answer, whatever its class. *)
Inductive outcome (A : Type) : Type :=
| Done (a : A)
| NotFound
| Raised (e : pyexn)
| ServiceError.

Arguments Done {A} a.
Arguments NotFound {A}.
Arguments Raised {A} e.
Arguments ServiceError {A}.

(** A handler step: it ends with an outcome and leaves a world. *)
Definition action (A : Type) : Type := world -> outcome A * world.

Definition ret {A : Type} (a : A) : action A := fun w => (Done a, w).

Definition raise {A : Type} (e : pyexn) : action A := fun w => (Raised e, w).

Definition and_then {A B : Type} (x : action A) (k : A -> action B)
    : action B :=
  fun w =>
    match x w with
    | (Done a, w') => k a w'
    | (NotFound, w') => (NotFound, w')
    | (Raised e, w') => (Raised e, w')
    | (ServiceError, w') => (ServiceError, w')
    end.

Notation "x <~ c1 ;; c2" := (and_then c1 (fun x => c2))
  (at level 61, c1 at next level, right associativity).

(** [client.chat.completions.create(...)] and the content of its answer. *)
Definition create (llm : service) (req : request) : action str :=
  fun w =>
    let w' := {| rows := rows w; sent := sent w ++ [req] |} in
    match llm (sent w) req with
    | Some answer => (Done answer, w')
    | None => (ServiceError, w')
    end.

(** [Paper.query.get_or_404(paper_id)]. *)
Definition get (paper_id : nat) (table : list Models.Paper)
    : option Models.Paper :=
  find (fun p => Models.id p =? paper_id) table.

Definition get_or_404 (paper_id : nat) : action Models.Paper :=
  fun w =>
    match get paper_id (rows w) with
    | Some p => (Done p, w)
    | None => (NotFound, w)
    end.

(** [db.session.commit()] after attributes of [paper] were set. *)
Definition commit (paper : Models.Paper) : action unit :=
  fun w =>
    (Done tt,
     {| rows := map (fun q => if Models.id q =? Models.id paper
                              then paper else q) (rows w);
        sent := sent w |}).

(** A string method called on the value of a nullable column: on None it
    raises AttributeError. *)
Definition method_of (x : option str) : action str :=
  match x with
  | Some s => ret s
  | None => raise AttributeError
  end.

(** The truth value of the value of a nullable column: None and the empty
    string are false. *)
Definition truthy (x : option str) : bool :=
  match x with
  | Some (_ :: _) => true
  | _ => false
  end.

(** The template of [generate_summary] before and after [{text}]. *)
Definition summary_prompt_head : str :=
  join [NL]
    (map lit
       [""; "    Summarize this AI/CS research paper concisely (150-200 words).";
        "    Structure as:";
        "    - Main Contributions: [bullet points]";
        "    - Methodology: [brief description]";
        "    - Key Results: [bullet points]";
        "    Focus on innovations and implications.";
        "    Paper text: "]).

Definition prompt_tail : str := NL :: lit "    ".

(** [text.replace('<br>', '\n').replace('&nbsp;&nbsp;', ' ')[:3000]] *)
Definition prompt_text (text : str) : str :=
  firstn 3000
    (replace (lit "&nbsp;&nbsp;") (lit " ") (replace (lit "<br>") [NL] text)).

Definition generate_summary (llm : service) (text : str) : action str :=
  let prompt := summary_prompt_head ++ prompt_text text ++ prompt_tail in
  answer <~ create llm {| model := lit "gpt-4o-mini"; content := prompt;
                          temperature := Some 3 |} ;;
  ret (replace [NL] (lit "<br>") answer).

Definition findings_prompt_head : str :=
  join [NL]
    (map lit
       [""; "    Extract 3-5 key findings and contributions as bullet points from this summary.";
        "    Summary: "]).

Definition extract_key_findings (llm : service) (summary : str) : action str :=
  let prompt := findings_prompt_head ++ summary ++ prompt_tail in
  answer <~ create llm {| model := lit "gpt-4o-mini"; content := prompt;
                          temperature := None |} ;;
  ret (replace [NL] (lit "<br>") answer).

Definition gaps_prompt_head : str :=
  join [NL]
    (map lit
       [""; "    Analyze this AI/CS paper summary for research gaps.";
        "    Structure as:";
        "    - Limitations: [bullet points]";
        "    - Future Work: [3-5 specific suggestions]";
        "    - Unexplored Areas: [opportunities]";
        "    Be realistic.";
        "    Summary: "]).

Definition analyze_gaps (llm : service) (summary : str) : action str :=
  let prompt := gaps_prompt_head ++ summary ++ prompt_tail in
  answer <~ create llm {| model := lit "gpt-4o-mini"; content := prompt;
                          temperature := Some 5 |} ;;
  ret (replace [NL] (lit "<br>") answer).

(** The paper that [upload] builds from the text of a PDF saved at
    [filepath], under the id the database gives it. *)
Definition new_paper (paper_id : nat) (text filepath : str)
    : result Models.Paper :=
  fields <- extract_metadata text ;;
  let '(title, authors, abstract, full_text) := fields in
  Ok {| Models.id := paper_id;
        Models.title := title;
        Models.authors := Some authors;
        Models.abstract := Some abstract;
        Models.full_text := Some full_text;
        Models.summary := None;
        Models.key_findings := None;
        Models.gaps := None;
        Models.future_work := None;
        Models.pdf_path := Some filepath |}.

(** [.replace('<br>', '\n').replace('&nbsp;&nbsp;', '  ')], which
    [summarize_paper] applies to the stored full text. *)
Definition decode_full_text (s : str) : str :=
  replace (lit "&nbsp;&nbsp;") (lit "  ") (replace (lit "<br>") [NL] s).

Definition set_summary (paper : Models.Paper) (summary findings : str)
    : Models.Paper :=
  {| Models.id := Models.id paper;
     Models.title := Models.title paper;
     Models.authors := Models.authors paper;
     Models.abstract := Models.abstract paper;
     Models.full_text := Models.full_text paper;
     Models.summary := Some summary;
     Models.key_findings := Some findings;
     Models.gaps := Models.gaps paper;
     Models.future_work := Models.future_work paper;
     Models.pdf_path := Models.pdf_path paper |}.

Definition set_gaps (paper : Models.Paper) (gaps future_work : str)
    : Models.Paper :=
  {| Models.id := Models.id paper;
     Models.title := Models.title paper;
     Models.authors := Models.authors paper;
     Models.abstract := Models.abstract paper;
     Models.full_text := Models.full_text paper;
     Models.summary := Models.summary paper;
     Models.key_findings := Models.key_findings paper;
     Models.gaps := Some gaps;
     Models.future_work := Some future_work;
     Models.pdf_path := Models.pdf_path paper |}.

(** The body of a JSON answer: its keys and their values, null for None. *)
Definition json : Type := list (str * option str).

(** The route [/summarize/<paper_id>]. *)
Definition summarize_paper (llm : service) (paper_id : nat) : action json :=
  paper <~ get_or_404 paper_id ;;
  paper <~ (if negb (truthy (Models.summary paper))
            then
              full_text <~ method_of (Models.full_text paper) ;;
              summary <~ generate_summary llm (decode_full_text full_text) ;;
              findings <~ extract_key_findings llm summary ;;
              let paper' := set_summary paper summary findings in
              _ <~ commit paper' ;;
              ret paper'
            else ret paper) ;;
  ret [(lit "summary", Models.summary paper);
       (lit "key_findings", Models.key_findings paper)].

(** [s.split(sep, 1)]: the text before and after the first occurrence of
    [sep], or the text alone when [sep] does not occur. *)
Fixpoint cut_first (sep s : str) : option (str * str) :=
  if startswith sep s then Some ([], skipn (length sep) s)
  else match s with
       | [] => None
       | c :: s' =>
           match cut_first sep s' with
           | Some (a, b) => Some (c :: a, b)
           | None => None
           end
       end.

Definition split_once (sep s : str) : list str :=
  match cut_first sep s with
  | Some (a, b) => [a; b]
  | None => [s]
  end.

(** [a, b = xs]: unpacking needs exactly two values. *)
Definition unpack2 (xs : list str) : action (str * str) :=
  match xs with
  | [a; b] => ret (a, b)
  | _ => raise ValueError
  end.

(** [sub in s] on strings. *)
Fixpoint occurs (sub s : str) : bool :=
  startswith sub s ||
  match s with
  | [] => false
  | _ :: s' => occurs sub s'
  end.

Definition default_future_work : str :=
  lit "Future directions: Explore multimodal extensions.".

(** The route [/gaps/<paper_id>]. *)
Definition gaps_paper (llm : service) (paper_id : nat) : action json :=
  paper <~ get_or_404 paper_id ;;
  paper <~ (if negb (truthy (Models.gaps paper))
            then
              summary <~ method_of (Models.summary paper) ;;
              arg <~ (match replace (lit "<br>") [NL] summary with
                      | _ :: _ as s => ret s
                      | [] =>
                          abstract <~ method_of (Models.abstract paper) ;;
                          ret (replace (lit "<br>") [NL] abstract)
                      end) ;;
              gaps_text <~ analyze_gaps llm arg ;;
              paper' <~ (if occurs (lit "Future Work:") gaps_text
                         then
                           parts <~ unpack2 (split_once (lit "Future Work:")
                                               gaps_text) ;;
                           ret (set_gaps paper (fst parts) (strip (snd parts)))
                         else
                           ret (set_gaps paper gaps_text default_future_work)) ;;
              _ <~ commit paper' ;;
              ret paper'
            else ret paper) ;;
  ret [(lit "gaps", Models.gaps paper);
       (lit "future_work", Models.future_work paper)].

End Routes.

(** * Definitions for the statements

    The total functions that give the value of each step of the extractor,
    the shapes of text the patterns match, the properties as the
    specification words them, and the inputs of the examples. *)

(** ** The title line *)

(** The test on a line of the title scan, as a total function: the trimmed
    line is non-empty and the first character of the line as it stands is
    upper-case, or the trimmed line has more than 10 characters. *)
Definition qualifies (line : str) : bool :=
  match strip line with
  | [] => false
  | _ :: _ =>
      match line with
      | c :: _ => isupper c
      | [] => false
      end || (10 <? length (strip line))
  end.

Definition title_of_lines (lines : list str) : str :=
  match find qualifies lines with
  | Some line => strip line
  | None => unknown_title
  end.

(** ** The bounds of the author block *)

(** The position of the first line equal to [x], as [list.index] finds it. *)
Fixpoint position (x : str) (xs : list str) : option nat :=
  match xs with
  | [] => None
  | y :: ys => if str_eqb y x then Some 0 else option_map S (position x ys)
  end.

Definition start_of (lines : list str) (title : str) : nat :=
  match position title lines with
  | Some i => i + 1
  | None => 0
  end.

(** The line at index [i], with its white space trimmed. *)
Definition trimmed_line (lines : list str) (i : nat) : str :=
  strip (nth i lines []).

Definition marker_at (lines : list str) (i : nat) : bool :=
  has_marker (trimmed_line lines i).

Definition end_of (lines : list str) (start_idx : nat) : nat :=
  match find (marker_at lines)
             (range start_idx (Nat.min (start_idx + 15) (length lines))) with
  | Some i => i
  | None => length lines
  end.

(** ** The extractor as a total function *)

Definition authors_value (block : str) : str :=
  match search author_re block with
  | Some (Some a) => strip (replace [NL] (lit " ") a)
  | _ => unknown_authors
  end.

Definition captured_abstract (text : str) : str :=
  match search abstract_re text with
  | Some (Some c) => strip c
  | _ => abstract_not_found
  end.

Definition abstract_value (text : str) : str := render (captured_abstract text).

Definition title_value (text : str) : str := title_of_lines (split_nl text).

Definition start_value (text : str) : nat :=
  start_of (split_nl text) (title_value text).

Definition end_value (text : str) : nat :=
  end_of (split_nl text) (start_value text).

Definition block_value (text : str) : str :=
  author_block (split_nl text) (start_value text) (end_value text).

(** ** Inputs of the examples *)

(** The text whose lines are the given ones: ['\n'.join(ls)]. *)
Definition text_of_lines (ls : list String.string) : str :=
  join [NL] (map lit ls).

(** [sub in s] on strings. *)
Fixpoint contains (sub s : str) : bool :=
  startswith sub s ||
  match s with
  | [] => false
  | _ :: s' => contains sub s'
  end.

Definition paper_example : str :=
  text_of_lines
    ["My Great Paper"; "Jane Doe1, John Smith2"; "Abstract"; "We study X.";
     "1 Introduction"; "..."].

(** ** Replacement and the render encoding *)

Definition space : ascii := " "%char.

(** What the encoding makes of a run of [n] spaces: a marker for every
    two spaces, from the left, and the odd space as it is. *)
Fixpoint encode_run (n : nat) : str :=
  match n with
  | 0 => []
  | 1 => [space]
  | S (S k) => lit "&nbsp;&nbsp;" ++ encode_run k
  end.

Definition replace_nl (s : str) : str := replace [NL] (lit "<br>") s.
Definition replace_spaces (s : str) : str :=
  replace (lit "  ") (lit "&nbsp;&nbsp;") s.

(** ** The matcher on patterns without a group *)

Fixpoint group_free (r : regex) : bool :=
  match r with
  | Eps | Chr _ => true
  | Seq r1 r2 | Alt r1 r2 => group_free r1 && group_free r2
  | Star _ r' | Look r' => group_free r'
  | Grp _ => false
  end.

(** The texts left to read after the matches of [r] at the head of [s]. *)
Definition remainders (r : regex) (s : str) : list str :=
  map snd (m r (None, s)).

Definition with_group (c : option str) (st : state) : state := (c, snd st).

(** *** Words, runs of a class, and the lazy star *)

(** The suffixes of [s] that a greedy star of the class [p] leaves, the
    one after the whole run of [p] first. *)
Fixpoint greedy_run (p : ascii -> bool) (s : str) : list str :=
  match s with
  | c :: s' => if p c then greedy_run p s' ++ [s] else [s]
  | [] => [[]]
  end.

(** The suffixes of [s], the longest first. *)
Fixpoint tails (s : str) : list str :=
  s :: match s with
       | [] => []
       | _ :: s' => tails s'
       end.

(** *** Membership in the remainders *)

(** [s] starts with the lower-case word [w], letter case ignored. *)
Definition startswith_ci (w s : str) : bool := startswith w (map lower s).

(** ** Section boundaries *)

(** A newline, optional white space, digits and white space: what the
    first alternative of the lookahead matches at the head of [s]. *)
Definition section_start (s : str) : Prop :=
  exists w d ds v vs t,
    s = NL :: w ++ (d :: ds) ++ (v :: vs) ++ t
    /\ forallb isspace w = true
    /\ forallb isdigit (d :: ds) = true
    /\ forallb isspace (v :: vs) = true.

(** A newline, optional white space, the digit 1, white space and the word
    introduction in any letter case: the second alternative. *)
Definition intro_start (s : str) : Prop :=
  exists w v vs t,
    s = NL :: w ++ "1"%char :: (v :: vs) ++ t
    /\ forallb isspace w = true
    /\ forallb isspace (v :: vs) = true
    /\ startswith_ci (lit "introduction") t = true.

Definition boundary_at (s : str) : Prop := section_start s \/ intro_start s.

(** The lookahead of the abstract pattern succeeds at the head of [s]. *)
Definition boundary_here (s : str) : bool :=
  match remainders boundary_re s with
  | [] => false
  | _ :: _ => true
  end.

(** ** What the abstract pattern captures *)

(** The text before the first section boundary of [s], when there is one:
    what the lazy group followed by the lookahead captures from [s]. *)
Fixpoint first_cut (s : str) : option str :=
  if boundary_here s then Some []
  else match s with
       | [] => None
       | c :: s' => option_map (cons c) (first_cut s')
       end.

Fixpoint first_some {A B : Type} (f : A -> option B) (l : list A)
    : option B :=
  match l with
  | [] => None
  | x :: l' =>
      match f x with
      | Some y => Some y
      | None => first_some f l'
      end
  end.

(** Group 1 of a match that has read the marker and stands before [s]: the
    white space is passed over, all of it first and then less and less,
    until a cut exists. *)
Definition capture_after (s : str) : option str :=
  first_some first_cut (greedy_run isspace s).

(** Group 1 of a match of the abstract pattern that starts at the head of
    [s]. *)
Definition capture_at (s : str) : option str :=
  if startswith_ci (lit "abstract") s
  then capture_after (skipn (length (lit "abstract")) s)
  else None.

(** Group 1 of the first match of the abstract pattern in [text]. *)
Fixpoint abstract_capture (text : str) : option str :=
  match capture_at text with
  | Some body => Some body
  | None =>
      match text with
      | [] => None
      | _ :: text' => abstract_capture text'
      end
  end.

(** The ways to cut a text in two, the empty prefix first. *)
Fixpoint splits (s : str) : list (str * str) :=
  ([], s) ::
  match s with
  | [] => []
  | c :: s' => map (fun ab => (c :: fst ab, snd ab)) (splits s')
  end.

Definition group_of (l : list state) : option (option str) :=
  match l with
  | [] => None
  | st :: _ => Some (fst st)
  end.

Definition after_spaces_re : regex :=
  Seq (Grp (Star false (Chr (fun _ => true)))) (Look boundary_re).

(** ** The abstract *)

(** The third component of the result. *)
Definition returns_abstract (text abstract : str) : Prop :=
  exists title authors full_text,
    extract_metadata text = Ok (title, authors, abstract, full_text).

(** The marker at the head of [mk ++ s] is the first one of the text:
    no occurrence of it starts in [pre]. *)
Definition first_marker (text pre : str) : Prop :=
  forall a b, text = a ++ b -> length a < length pre ->
              startswith_ci (lit "abstract") b = false.

Definition no_boundary_example : str :=
  text_of_lines ["My Great Paper"; "Abstract"; "We study X."; "Introduction"].

(** C3 as the specification words it: the abstract is the trimmed and
    encoded text between the first marker and the first section boundary
    after it, and the placeholder when there is no marker. *)
Definition abstract_as_claimed (text abstract : str) : Prop :=
  ((forall a b, text = a ++ b -> startswith_ci (lit "abstract") b = false) ->
   abstract = lit "Abstract not found")
  /\ (forall pre mk body rest,
        text = pre ++ mk ++ body ++ rest ->
        map lower mk = lit "abstract" ->
        first_marker text pre ->
        boundary_at rest ->
        (forall a b, body = a ++ b -> b <> [] -> ~ boundary_at (b ++ rest)) ->
        abstract = render (strip body)).

Definition empty_abstract_example : str :=
  text_of_lines
    ["Abstract"; "1 Introduction"; "We study X."; "2 Methods"; "..."].

(** ** Marker lines *)

Definition marker_words : list str :=
  [lit "abstract"; lit "date"; lit "correspondence"; lit "affiliation"].

(** The line contains one of the marker words, letter case ignored. *)
Definition contains_marker (line : str) : bool :=
  existsb (fun w => contains w (map lower line)) marker_words.

(** One of the marker words starts at the head of the line. *)
Definition starts_marker (line : str) : bool :=
  existsb (fun w => startswith w (map lower line)) marker_words.

(** ** The title *)

(** The first component of the result. *)
Definition returns_title (text title : str) : Prop :=
  exists authors abstract full_text,
    extract_metadata text = Ok (title, authors, abstract, full_text).

(** C2 as the specification words it: the upper-case test is on the first
    character of the trimmed line. *)
Definition qualifies_as_claimed (line : str) : bool :=
  match strip line with
  | [] => false
  | c :: _ => isupper c || (10 <? length (strip line))
  end.

Definition title_as_claimed (text : str) : str :=
  match find qualifies_as_claimed (split_nl text) with
  | Some line => strip line
  | None => lit "Unknown Title"
  end.

Definition indented_title_example : str := text_of_lines [" Hello"; "World"].

(** ** The author block *)




(** ** Where the author scan starts *)

(** C6 as the specification words it: the scan starts after the first line
    whose trimmed text is the title, or at line 0 without such a line. *)
Fixpoint position_trimmed (x : str) (xs : list str) : option nat :=
  match xs with
  | [] => None
  | y :: ys =>
      if str_eqb (strip y) x then Some 0
      else option_map S (position_trimmed x ys)
  end.

Definition start_as_claimed (text : str) : nat :=
  match position_trimmed (title_value text) (split_nl text) with
  | Some i => i + 1
  | None => 0
  end.

Definition padded_title_example : str :=
  text_of_lines
    ["Deep Nets "; "Jane Doe"; "Abstract"; "We study X."; "1 Introduction";
     "..."].

(** ** The pages: requests, rows and answers *)

(** The requests that the three prompt functions send. *)
Definition summary_request (text : str) : Routes.request :=
  {| Routes.model := lit "gpt-4o-mini";
     Routes.content :=
       Routes.summary_prompt_head ++ Routes.prompt_text text
       ++ Routes.prompt_tail;
     Routes.temperature := Some 3 |}.

Definition findings_request (summary : str) : Routes.request :=
  {| Routes.model := lit "gpt-4o-mini";
     Routes.content :=
       Routes.findings_prompt_head ++ summary ++ Routes.prompt_tail;
     Routes.temperature := None |}.

Definition gaps_request (summary : str) : Routes.request :=
  {| Routes.model := lit "gpt-4o-mini";
     Routes.content := Routes.gaps_prompt_head ++ summary ++ Routes.prompt_tail;
     Routes.temperature := Some 5 |}.

(** The table after a commit of [paper]. *)
Definition updated (paper : Models.Paper) (table : list Models.Paper)
    : list Models.Paper :=
  map (fun q => if Models.id q =? Models.id paper then paper else q) table.

Definition summary_json (paper : Models.Paper) : Routes.json :=
  [(lit "summary", Models.summary paper);
   (lit "key_findings", Models.key_findings paper)].

Definition gaps_json (paper : Models.Paper) : Routes.json :=
  [(lit "gaps", Models.gaps paper);
   (lit "future_work", Models.future_work paper)].

(** An answer of the service as the prompt functions return it. *)
Definition encoded (answer : str) : str := replace [NL] (lit "<br>") answer.

(** The argument of [analyze_gaps]: the decoded summary, or the decoded
    abstract when that is empty. *)
Definition gaps_argument (summary : str) (abstract : option str)
    : option str :=
  match replace (lit "<br>") [NL] summary with
  | _ :: _ as s => Some s
  | [] => option_map (replace (lit "<br>") [NL]) abstract
  end.

(** The paper with the gaps and the future work that [gaps_paper] takes
    from an encoded answer. *)
Definition with_gaps (paper : Models.Paper) (gaps_text : str) : Models.Paper :=
  match Routes.cut_first (lit "Future Work:") gaps_text with
  | Some (before, after) => Routes.set_gaps paper before (strip after)
  | None => Routes.set_gaps paper gaps_text Routes.default_future_work
  end.

(** Two rows agree on what [upload] stored. *)
Definition same_source (p q : Models.Paper) : Prop :=
  Models.id p = Models.id q
  /\ Models.title p = Models.title q
  /\ Models.authors p = Models.authors q
  /\ Models.abstract p = Models.abstract q
  /\ Models.full_text p = Models.full_text q
  /\ Models.pdf_path p = Models.pdf_path q.

Definition no_newline (x : option str) : Prop :=
  match x with
  | Some s => ~ In NL s
  | None => True
  end.

(** The columns filled from answers of the service hold no newline. *)
Definition encoded_row (p : Models.Paper) : Prop :=
  no_newline (Models.summary p) /\ no_newline (Models.key_findings p)
  /\ no_newline (Models.gaps p) /\ no_newline (Models.future_work p).

(** No character [c] in [s], by evaluation. *)
Definition absent (c : ascii) (s : str) : bool :=
  negb (existsb (Ascii.eqb c) s).

(** A table with the paper that [upload] builds from the example text, and
    a service with one fixed answer. *)
Definition example_row : Models.Paper :=
  {| Models.id := 1;
     Models.title := lit "My Great Paper";
     Models.authors := Some (lit "Jane Doe1, John Smith2");
     Models.abstract := Some (lit "We study X.");
     Models.full_text := Some (render paper_example);
     Models.summary := None;
     Models.key_findings := None;
     Models.gaps := None;
     Models.future_work := None;
     Models.pdf_path := Some (lit "uploads/paper.pdf") |}.

Definition example_world : Routes.world :=
  {| Routes.rows := [example_row]; Routes.sent := [] |}.

Definition example_service : Routes.service :=
  fun _ _ => Some (lit "- Limitations: few" ++ NL :: lit "- Future Work: more").

(** The example table after a summary was stored. *)
Definition summarized_world : Routes.world :=
  {| Routes.rows := [Routes.set_summary example_row (lit "S") (lit "F")];
     Routes.sent := [] |}.

(** From [w] to [w1] the ids of the rows are as they were, the papers under
    other ids than [paper_id] are as they were, and the paper under
    [paper_id] keeps what [upload] stored. *)
Definition keeps_source (paper_id : nat) (w w1 : Routes.world) : Prop :=
  map Models.id (Routes.rows w1) = map Models.id (Routes.rows w)
  /\ (forall other, other <> paper_id ->
        Routes.get other (Routes.rows w1) = Routes.get other (Routes.rows w))
  /\ (forall p, Routes.get paper_id (Routes.rows w) = Some p ->
        exists p1, Routes.get paper_id (Routes.rows w1) = Some p1
                   /\ same_source p p1).

(** * Properties *)

(** ** Strings: trimming *)

Lemma lstrip_idem (s : str) : lstrip (lstrip s) = lstrip s.
Proof.
  induction s as [|c s IH]; simpl; [reflexivity|].
  destruct (isspace c) eqn:E; [exact IH|]. simpl. rewrite E. reflexivity.
Qed.

Lemma lstrip_app (a b : str) :
  lstrip (a ++ b) =
  match lstrip a with
  | [] => lstrip b
  | _ :: _ => lstrip a ++ b
  end.
Proof.
  induction a as [|c a IH]; simpl; [reflexivity|].
  destruct (isspace c); [exact IH | reflexivity].
Qed.

Lemma rstrip_cons (c : ascii) (s : str) :
  rstrip (c :: s) =
  match rstrip s with
  | [] => if isspace c then [] else [c]
  | _ :: _ => c :: rstrip s
  end.
Proof.
  unfold rstrip. simpl rev. rewrite lstrip_app.
  destruct (lstrip (rev s)) as [|x l] eqn:E; simpl.
  - destruct (isspace c); reflexivity.
  - rewrite rev_app_distr. simpl.
    destruct (rev l ++ [x]) eqn:E'; [|reflexivity].
    destruct (rev l); discriminate.
Qed.

Lemma rstrip_idem (s : str) : rstrip (rstrip s) = rstrip s.
Proof.
  unfold rstrip. rewrite rev_involutive, lstrip_idem. reflexivity.
Qed.

(** A string that does not start with white space keeps its head when its
    end is trimmed. *)
Lemma lstrip_rstrip_fixed (s : str) :
  lstrip s = s -> lstrip (rstrip s) = rstrip s.
Proof.
  destruct s as [|c s]; [reflexivity|]. simpl.
  destruct (isspace c) eqn:E.
  - intros H. exfalso.
    assert (L : length (lstrip s) <= length s).
    { clear. induction s as [|x s IH]; simpl; [lia|].
      destruct (isspace x); simpl; lia. }
    rewrite H in L. simpl in L. lia.
  - intros _. rewrite rstrip_cons.
    destruct (rstrip s); rewrite ?E; simpl; rewrite E; reflexivity.
Qed.

Lemma strip_idem (s : str) : strip (strip s) = strip s.
Proof.
  unfold strip.
  rewrite (lstrip_rstrip_fixed (lstrip s) (lstrip_idem s)).
  apply rstrip_idem.
Qed.

(** ** Lists of lines: indexing *)

Lemma getitem_lt {A : Type} (xs : list A) (i : nat) :
  i < length xs -> exists x, getitem xs i = Ok x /\ nth_error xs i = Some x.
Proof.
  intros H. unfold getitem.
  destruct (nth_error xs i) as [x|] eqn:E.
  - exists x. auto.
  - apply nth_error_None in E. lia.
Qed.

Lemma split_nl_nonempty (s : str) : split_nl s <> [].
Proof.
  induction s as [|c s IH]; simpl; [discriminate|].
  destruct (Ascii.eqb c NL); [discriminate|].
  destruct (split_nl s); discriminate.
Qed.

(** ** The title line *)

(** Indexing [line[0]] is guarded by the emptiness test before it. *)
Lemma significant_ok (line : str) : significant line = Ok (qualifies line).
Proof.
  unfold significant, qualifies.
  destruct (strip line) as [|x t] eqn:E; [reflexivity|].
  destruct line as [|c l]; [discriminate E|]. reflexivity.
Qed.

Lemma find_title_ok (lines : list str) :
  find_title lines = Ok (title_of_lines lines).
Proof.
  unfold title_of_lines.
  induction lines as [|l ls IH]; simpl; [reflexivity|].
  rewrite significant_ok. simpl.
  destruct (qualifies l); [reflexivity | exact IH].
Qed.

Lemma title_trimmed (lines : list str) :
  strip (title_of_lines lines) = title_of_lines lines.
Proof.
  unfold title_of_lines. destruct (find qualifies lines).
  - apply strip_idem.
  - reflexivity.
Qed.

(** ** The bounds of the author block *)

Lemma mem_position (x : str) (xs : list str) :
  mem x xs = match position x xs with Some _ => true | None => false end.
Proof.
  induction xs as [|y ys IH]; simpl; [reflexivity|].
  destruct (str_eqb y x); simpl; [reflexivity|].
  rewrite IH. destruct (position x ys); reflexivity.
Qed.

Lemma index_position (x : str) (xs : list str) (i : nat) :
  position x xs = Some i -> index xs x = Ok i /\ i < length xs.
Proof.
  revert i; induction xs as [|y ys IH]; simpl; intros i; [discriminate|].
  destruct (str_eqb y x).
  - intros H; inversion H; subst. split; [reflexivity | lia].
  - destruct (position x ys) as [j|]; simpl; [|discriminate].
    intros H; inversion H; subst.
    destruct (IH j eq_refl) as [-> Hj]. simpl. split; [reflexivity | lia].
Qed.

(** [lines.index] is called only under the guard [title in lines], with a
    title that trimming does not change: it finds the title. *)
Lemma start_index_ok (lines : list str) (title : str) :
  strip title = title ->
  start_index lines title = Ok (start_of lines title)
  /\ start_of lines title <= length lines.
Proof.
  intros Ht. unfold start_index, start_of.
  rewrite mem_position, Ht.
  destruct (position title lines) as [i|] eqn:E.
  - destruct (index_position _ _ _ E) as [-> Hi]. simpl.
    split; [reflexivity | lia].
  - split; [reflexivity | lia].
Qed.

Lemma find_end_ok (lines : list str) (n a d : nat) :
  a + n <= length lines ->
  find_end lines (seq a n) d =
  Ok (match find (marker_at lines) (seq a n) with
      | Some i => i
      | None => d
      end).
Proof.
  revert a; induction n as [|n IH]; intros a H; simpl; [reflexivity|].
  assert (Ha : a < length lines) by (clear - H; lia).
  destruct (getitem_lt lines a Ha) as (x & Hx & Hn).
  rewrite Hx. simpl. unfold marker_at at 1, trimmed_line.
  rewrite (nth_error_nth _ _ _ Hn).
  destruct (has_marker (strip x)); [reflexivity|].
  apply IH. clear - H. lia.
Qed.

(** Every index of the loop is below [len(lines)], so [lines[i]] is
    defined. *)
Lemma end_index_ok (lines : list str) (start_idx : nat) :
  start_idx <= length lines ->
  end_index lines start_idx = Ok (end_of lines start_idx).
Proof.
  intros H. unfold end_index, end_of, range. apply find_end_ok. lia.
Qed.

(** ** Searching: where a match starts and what group 1 holds *)

Ltac case_match_at r :=
  match goal with
  | |- context [m r ?st] =>
      let E := fresh "E" in destruct (m r st) as [|? ?] eqn:E
  end.

Lemma search_some (r : regex) (text : str) (g : option str) :
  search r text = Some g ->
  exists skipped s st rest,
    text = skipped ++ s /\ m r (None, s) = st :: rest /\ g = fst st.
Proof.
  induction text as [|c t IH]; simpl; case_match_at r; intros H.
  - discriminate H.
  - inversion H; subst. exists [], []. eauto.
  - destruct (IH H) as (a & s & st & rest & -> & Hm & Hg).
    exists (c :: a), s, st, rest. auto.
  - inversion H; subst. exists [], (c :: t). eauto.
Qed.

(** A closed group holds a prefix of the text the group started at. *)
Lemma group_captures (r : regex) (st0 st : state) :
  In st (m (Grp r) st0) ->
  exists k, fst st = Some (firstn k (snd st0)).
Proof.
  simpl. rewrite in_map_iff. intros (st' & <- & _). simpl. eauto.
Qed.

(** A lookahead consumes nothing and leaves group 1 as it is. *)
Lemma lookahead_keeps (r : regex) (st0 st : state) :
  In st (m (Look r) st0) -> st = st0 /\ m r st0 <> [].
Proof.
  change (m (Look r) st0)
    with (match m r st0 with [] => [] | _ :: _ => [st0] end).
  destruct (m r st0); simpl; [tauto|].
  intros [<-|[]]. split; [reflexivity | discriminate].
Qed.

(** In a match of the author pattern group 1 is set, and its text occurs
    in the author block. *)
Lemma author_group (block : str) (g : option str) :
  search author_re block = Some g ->
  exists before a after, g = Some a /\ block = before ++ a ++ after.
Proof.
  intros H. destruct (search_some _ _ _ H) as (sk & s & st & rest & -> & Hm & ->).
  assert (Hin : In st (m author_re (None, s))) by (rewrite Hm; left; auto).
  unfold author_re in Hin. apply group_captures in Hin.
  destruct Hin as (k & ->). simpl.
  exists sk, (firstn k s), (skipn k s). split; [reflexivity|].
  rewrite firstn_skipn. reflexivity.
Qed.

(** In a match of the abstract pattern group 1 is set. *)
Lemma abstract_group (text : str) (g : option str) :
  search abstract_re text = Some g -> exists c, g = Some c.
Proof.
  intros H. destruct (search_some _ _ _ H) as (sk & s & st & rest & -> & Hm & ->).
  assert (Hin : In st (m abstract_re (None, s))) by (rewrite Hm; left; auto).
  unfold abstract_re in Hin.
  change (In st (flat_map
                   (fun a => flat_map
                      (fun b => flat_map
                         (m (Look boundary_re))
                         (m (Grp (Star false (Chr (fun _ => true)))) b))
                      (m (Star true ws) a))
                   (m (word LitI (lit "abstract")) (None, s)))) in Hin.
  apply in_flat_map in Hin. destruct Hin as (a & _ & Hin).
  apply in_flat_map in Hin. destruct Hin as (b & _ & Hin).
  apply in_flat_map in Hin. destruct Hin as (c & Hc & Hin).
  apply group_captures in Hc. destruct Hc as (k & Hk).
  apply lookahead_keeps in Hin. destruct Hin as [-> _]. eauto.
Qed.

(** ** The extractor as a total function *)

Lemma authors_of_ok (block : str) :
  authors_of block = Ok (authors_value block).
Proof.
  unfold authors_of, authors_value.
  destruct (search author_re block) as [g|] eqn:E; [|reflexivity].
  destruct (author_group _ _ E) as (b & a & c & -> & _). reflexivity.
Qed.

Lemma abstract_of_ok (text : str) :
  abstract_of text = Ok (abstract_value text).
Proof.
  unfold abstract_of, abstract_value, captured_abstract.
  destruct (search abstract_re text) as [g|] eqn:E; [|reflexivity].
  destruct (abstract_group _ _ E) as (c & ->). reflexivity.
Qed.

(** No operation of the extractor raises: the value of each of its steps
    is given by the total functions above. *)
Lemma extract_metadata_ok (text : str) :
  extract_metadata text =
  Ok (title_value text, authors_value (block_value text),
      abstract_value text, render text).
Proof.
  unfold extract_metadata.
  rewrite find_title_ok. simpl.
  destruct (start_index_ok (split_nl text) _ (title_trimmed (split_nl text)))
    as [-> Hle]. simpl.
  rewrite (end_index_ok _ _ Hle). simpl.
  rewrite authors_of_ok. simpl.
  rewrite abstract_of_ok. reflexivity.
Qed.

(** ** Totality *)

(** C1. For every input [extract_metadata] returns a 4-tuple of strings and
    raises nothing; where no title line, no author match or no match of the
    abstract pattern is found, the component is its placeholder. *)
Theorem extract_metadata_total (text : str) :
  exists title authors abstract full_text,
    extract_metadata text = Ok (title, authors, abstract, full_text)
    /\ (find qualifies (split_nl text) = None -> title = lit "Unknown Title")
    /\ (search author_re (block_value text) = None ->
        authors = lit "Unknown Authors")
    /\ (search abstract_re text = None ->
        abstract = lit "Abstract not found").
Proof.
  exists (title_value text), (authors_value (block_value text)),
         (abstract_value text), (render text).
  split; [apply extract_metadata_ok|].
  unfold title_value, title_of_lines, authors_value, abstract_value,
    captured_abstract.
  repeat split; intros ->; reflexivity.
Qed.

(** C8. On the empty string the result is the three placeholders and an
    empty full text. *)
Theorem extract_metadata_empty :
  extract_metadata (lit "") =
  Ok (lit "Unknown Title", lit "Unknown Authors", lit "Abstract not found",
      lit "").
Proof. vm_compute. reflexivity. Qed.

(** C9. On the example paper the title is its first line, the authors
    contain the author line, and the encoded abstract contains its sentence
    and no newline. *)
Theorem extract_metadata_paper_example :
  exists authors abstract full_text,
    extract_metadata paper_example =
    Ok (lit "My Great Paper", authors, abstract, full_text)
    /\ contains (lit "Jane Doe1, John Smith2") authors = true
    /\ contains (lit "We study X.") abstract = true
    /\ contains [NL] abstract = false.
Proof.
  exists (lit "Jane Doe1, John Smith2"), (lit "We study X."),
         (render paper_example).
  repeat split; vm_compute; reflexivity.
Qed.

(** ** Replacement and the render encoding *)

#[local] Arguments Ascii.eqb : simpl never.

Lemma render_unfold (s : str) : render s = replace_spaces (replace_nl s).
Proof. reflexivity. Qed.

Lemma replace_nl_cons (c : ascii) (s : str) :
  replace_nl (c :: s) =
  if Ascii.eqb NL c then lit "<br>" ++ replace_nl s else c :: replace_nl s.
Proof.
  unfold replace_nl, replace. simpl. rewrite andb_true_r.
  destruct (Ascii.eqb NL c); reflexivity.
Qed.

Lemma replace_nl_app (a b : str) :
  replace_nl (a ++ b) = replace_nl a ++ replace_nl b.
Proof.
  induction a as [|c a IH]; [reflexivity|].
  cbn [app]. rewrite !replace_nl_cons, IH.
  destruct (Ascii.eqb NL c); [rewrite <- app_assoc|]; reflexivity.
Qed.

Lemma replace_nl_spaces (n : nat) :
  replace_nl (repeat space n) = repeat space n.
Proof.
  induction n as [|n IH]; [reflexivity|].
  cbn [repeat]. rewrite replace_nl_cons, IH. reflexivity.
Qed.

Lemma replace_spaces_pair (s : str) :
  replace_spaces (space :: space :: s) = lit "&nbsp;&nbsp;" ++ replace_spaces s.
Proof. reflexivity. Qed.

Lemma replace_spaces_other (c : ascii) (s : str) :
  startswith (lit "  ") (c :: s) = false ->
  replace_spaces (c :: s) = c :: replace_spaces s.
Proof.
  intros H. unfold replace_spaces, replace.
  change (replace_from (lit "  ") (lit "&nbsp;&nbsp;") 0 (c :: s))
    with (if startswith (lit "  ") (c :: s)
          then lit "&nbsp;&nbsp;" ++
               replace_from (lit "  ") (lit "&nbsp;&nbsp;") 1 s
          else c :: replace_from (lit "  ") (lit "&nbsp;&nbsp;") 0 s).
  rewrite H. reflexivity.
Qed.

(** The shapes of a text with respect to a pair of spaces at its head. *)
Lemma space_cases (s : str) :
  s = []
  \/ (exists t, s = space :: space :: t)
  \/ (exists c t, s = c :: t /\ startswith (lit "  ") s = false).
Proof.
  destruct s as [|c [|d t]]; auto; right.
  - right. exists c, []. split; [reflexivity|].
    simpl. rewrite andb_false_r. reflexivity.
  - destruct (Ascii.eqb space c) eqn:Ec, (Ascii.eqb space d) eqn:Ed;
      try (right; exists c, (d :: t); split; [reflexivity|];
           unfold lit; simpl; fold space; rewrite Ec, Ed; reflexivity).
    apply Ascii.eqb_eq in Ec, Ed. subst. left. eauto.
Qed.

Lemma starts_space (c : ascii) (s : str) :
  startswith (lit "  ") (c :: s) = false ->
  c <> space \/ (forall t, s <> space :: t).
Proof.
  destruct (Ascii.eqb space c) eqn:Ec.
  - apply Ascii.eqb_eq in Ec. subst c. intros H. right. intros t ->.
    discriminate H.
  - intros _. left. intros ->. rewrite Ascii.eqb_refl in Ec. discriminate.
Qed.

(** An induction that passes over one character or over a pair of spaces,
    as the replacement does. *)
Lemma replace_spaces_ind (P : str -> Prop) :
  P [] ->
  (forall t, P t -> P (space :: space :: t)) ->
  (forall c t, startswith (lit "  ") (c :: t) = false -> P t -> P (c :: t)) ->
  forall s, P s.
Proof.
  intros Hnil Hpair Hone s.
  assert (H : forall n s, length s <= n -> P s).
  { clear s. induction n as [|n IH]; intros s Hlen.
    - destruct s; [exact Hnil | simpl in Hlen; lia].
    - destruct (space_cases s) as [->|[(t & ->)|(c & t & -> & Hs)]].
      + exact Hnil.
      + apply Hpair, IH. simpl in Hlen. lia.
      + apply Hone; [exact Hs|]. apply IH. simpl in Hlen. lia. }
  apply (H (length s)). lia.
Qed.

(** A text that does not end with a space is encoded on its own. *)
Lemma replace_spaces_app (a b : str) :
  last a "x"%char <> space ->
  replace_spaces (a ++ b) = replace_spaces a ++ replace_spaces b.
Proof.
  revert a. apply (replace_spaces_ind
    (fun a => last a "x"%char <> space ->
              replace_spaces (a ++ b) = replace_spaces a ++ replace_spaces b)).
  - reflexivity.
  - intros t IH Hl. cbn [app]. rewrite !replace_spaces_pair, <- app_assoc.
    f_equal. apply IH. destruct t; [discriminate | exact Hl].
  - intros c t Hs IH Hl. cbn [app].
    destruct t as [|d t].
    + simpl in Hl. cbn [app].
      assert (Hb : startswith (lit "  ") (c :: b) = false).
      { unfold lit; simpl. destruct (Ascii.eqb " " c) eqn:E; [|reflexivity].
        apply Ascii.eqb_eq in E. subst c. exfalso. apply Hl. reflexivity. }
      rewrite (replace_spaces_other _ _ Hb), (replace_spaces_other _ _ Hs).
      reflexivity.
    + rewrite (replace_spaces_other _ _ Hs).
      assert (Hb : startswith (lit "  ") (c :: (d :: t) ++ b) = false)
        by exact Hs.
      rewrite (replace_spaces_other _ _ Hb). cbn [app]. f_equal.
      apply IH. exact Hl.
Qed.

(** A run of spaces before a text that does not start with one. *)
Lemma replace_spaces_run (n : nat) (b : str) :
  (forall t, b <> space :: t) ->
  replace_spaces (repeat space n ++ b) = encode_run n ++ replace_spaces b.
Proof.
  intros Hb.
  assert (H : forall k,
    replace_spaces (repeat space k ++ b) = encode_run k ++ replace_spaces b
    /\ replace_spaces (repeat space (S k) ++ b) =
       encode_run (S k) ++ replace_spaces b).
  { induction k as [|k [IH1 IH2]].
    - split; [reflexivity|]. cbn [repeat]. cbn [app].
      apply replace_spaces_other.
      destruct b as [|c b]; [reflexivity|].
      unfold lit; simpl. destruct (Ascii.eqb " " c) eqn:E; [|reflexivity].
      apply Ascii.eqb_eq in E. subst c. exfalso. apply (Hb b). reflexivity.
    - split; [exact IH2|].
      change (repeat space (S (S k)) ++ b)
        with (space :: space :: (repeat space k ++ b)).
      rewrite replace_spaces_pair, IH1.
      change (encode_run (S (S k))) with (lit "&nbsp;&nbsp;" ++ encode_run k).
      rewrite <- app_assoc. reflexivity. }
  apply H.
Qed.

Lemma last_app_nonempty (x y : str) (d : ascii) :
  y <> [] -> last (x ++ y) d = last y d.
Proof.
  intros Hy. induction x as [|c x IH]; [reflexivity|].
  cbn [app]. destruct (x ++ y) eqn:E.
  - destruct x; [simpl in E; contradiction | discriminate E].
  - exact IH.
Qed.

Lemma no_trailing_space (a : str) :
  (forall p, a <> p ++ [space]) -> last a "x"%char <> space.
Proof.
  intros H. destruct a as [|x a]; [discriminate|].
  assert (Hne : x :: a <> []) by discriminate.
  destruct (exists_last Hne) as (p & c & E). rewrite E, last_last.
  intros ->. apply (H p). exact E.
Qed.

Lemma replace_nl_last (a : str) :
  last a "x"%char <> space -> last (replace_nl a) "x"%char <> space.
Proof.
  destruct a as [|x a]; [intros _; discriminate|].
  assert (Hne : x :: a <> []) by discriminate.
  destruct (exists_last Hne) as (p & c & E). rewrite E, last_last.
  rewrite replace_nl_app, replace_nl_cons.
  change (replace_nl []) with (@nil ascii).
  intros Hc. rewrite last_app_nonempty.
  - destruct (Ascii.eqb NL c); [discriminate | exact Hc].
  - destruct (Ascii.eqb NL c); discriminate.
Qed.

Lemma replace_nl_head (b : str) :
  (forall t, b <> space :: t) -> forall t, replace_nl b <> space :: t.
Proof.
  intros H t. destruct b as [|c b]; [discriminate|].
  rewrite replace_nl_cons. destruct (Ascii.eqb NL c); [discriminate|].
  intros E. inversion E; subst. apply (H b). reflexivity.
Qed.

(** The encoding of a run of [n] spaces between a text that does not end
    with a space and one that does not start with one. *)
Lemma render_run (a b : str) (n : nat) :
  (forall p, a <> p ++ [space]) ->
  (forall q, b <> space :: q) ->
  render (a ++ repeat space n ++ b) = render a ++ encode_run n ++ render b.
Proof.
  intros Ha Hb. rewrite !render_unfold, !replace_nl_app, replace_nl_spaces.
  rewrite replace_spaces_app
    by (apply replace_nl_last, no_trailing_space, Ha).
  rewrite replace_spaces_run by (apply replace_nl_head, Hb).
  reflexivity.
Qed.

(** *** The encoding of an encoded text *)

Lemma replace_from_chars (old new : str) (x : ascii) (s : str) (k : nat) :
  In x (replace_from old new k s) -> In x new \/ In x s.
Proof.
  revert k; induction s as [|c s IH]; intros k; cbn [replace_from];
    [tauto|].
  destruct k as [|k].
  - destruct (startswith old (c :: s)).
    + rewrite in_app_iff. intros [H|H]; [tauto|].
      destruct (IH _ H); [tauto | right; right; assumption].
    + intros [->|H]; [right; left; reflexivity|].
      destruct (IH _ H); [tauto | right; right; assumption].
  - intros H. destruct (IH _ H); [tauto | right; right; assumption].
Qed.

Lemma replace_absent (old new s : str) :
  contains old s = false -> replace old new s = s.
Proof.
  unfold replace. induction s as [|c s IH]; [reflexivity|].
  cbn [contains replace_from]. intros H. apply orb_false_iff in H.
  destruct H as [-> H]. f_equal. apply IH. exact H.
Qed.

Lemma contains_char (c : ascii) (s : str) :
  ~ In c s -> contains [c] s = false.
Proof.
  induction s as [|x s IH]; intros H.
  - reflexivity.
  - cbn [contains startswith]. rewrite IH by (intros H'; apply H; right; auto).
    destruct (Ascii.eqb c x) eqn:E; [|reflexivity].
    apply Ascii.eqb_eq in E. subst. exfalso. apply H. left. reflexivity.
Qed.

Lemma replace_nl_clean (s : str) : ~ In NL (replace_nl s).
Proof.
  induction s as [|c s IH]; [intros []|].
  rewrite replace_nl_cons. destruct (Ascii.eqb NL c) eqn:E.
  - rewrite in_app_iff. intros [H|H]; [|tauto].
    simpl in H. repeat destruct H as [H|H]; try discriminate H. exact H.
  - intros [->|H]; [|tauto]. rewrite Ascii.eqb_refl in E. discriminate.
Qed.

Lemma render_no_newline (s : str) : ~ In NL (render s).
Proof.
  rewrite render_unfold. intros H. apply replace_from_chars in H.
  destruct H as [H|H].
  - simpl in H. repeat destruct H as [H|H]; try discriminate H. exact H.
  - exact (replace_nl_clean s H).
Qed.

Lemma replace_spaces_head (s t : str) :
  replace_spaces s = space :: t -> exists u, s = space :: u.
Proof.
  destruct (space_cases s) as [->|[(u & ->)|(c & u & -> & Hs)]].
  - discriminate.
  - eauto.
  - rewrite (replace_spaces_other _ _ Hs). intros E. inversion E. eauto.
Qed.

Lemma replace_spaces_clean (s : str) :
  contains (lit "  ") (replace_spaces s) = false.
Proof.
  apply (replace_spaces_ind
    (fun s => contains (lit "  ") (replace_spaces s) = false)).
  - reflexivity.
  - intros t IH. rewrite replace_spaces_pair.
    unfold lit. simpl. exact IH.
  - intros c t Hs IH. rewrite (replace_spaces_other _ _ Hs).
    cbn [contains]. rewrite IH, orb_false_r.
    destruct (starts_space _ _ Hs) as [Hc|Ht].
    + unfold lit; simpl. destruct (Ascii.eqb " " c) eqn:E; [|reflexivity].
      apply Ascii.eqb_eq in E. subst c. exfalso. apply Hc. reflexivity.
    + destruct (replace_spaces t) as [|d u] eqn:Eu.
      * unfold lit; simpl. apply andb_false_r.
      * unfold lit; simpl. rewrite andb_true_r.
        destruct (Ascii.eqb " " d) eqn:E; [|apply andb_false_r].
        apply Ascii.eqb_eq in E. subst d.
        destruct (replace_spaces_head _ _ Eu) as (v & ->).
        exfalso. apply (Ht v). reflexivity.
Qed.

(** Encoding an encoded text changes nothing. *)
Lemma render_idempotent (s : str) : render (render s) = render s.
Proof.
  rewrite (render_unfold (render s)).
  unfold replace_nl at 1.
  rewrite (replace_absent _ _ _ (contains_char _ _ (render_no_newline s))).
  rewrite render_unfold. unfold replace_spaces at 1.
  apply replace_absent.
  apply (replace_spaces_clean (replace_nl s)).
Qed.

(** C7 (as amended). The double-space encoding replaces pairs of spaces from
    the left without overlap: between a text that does not end with a space
    and one that does not start with one, a run of [n] spaces becomes a
    marker for each pair and leaves the odd space; 2 spaces give one marker,
    4 spaces two markers, 3 spaces a marker and a space.  The encoding is
    idempotent on every text: encoding an encoded text returns it
    unchanged, since it holds no newline and no two adjacent spaces. *)
Theorem render_space_runs (a b : str) :
  (forall p, a <> p ++ [space]) ->
  (forall q, b <> space :: q) ->
  (forall n, render (a ++ repeat space n ++ b) =
             render a ++ encode_run n ++ render b)
  /\ render (a ++ lit "  " ++ b) = render a ++ lit "&nbsp;&nbsp;" ++ render b
  /\ render (a ++ lit "    " ++ b) =
     render a ++ lit "&nbsp;&nbsp;&nbsp;&nbsp;" ++ render b
  /\ render (a ++ lit "   " ++ b) =
     render a ++ lit "&nbsp;&nbsp; " ++ render b
  /\ render (render (a ++ lit "   " ++ b)) = render (a ++ lit "   " ++ b)
  /\ (forall s, render (render s) = render s)
  /\ (forall s, contains [NL] (render s) = false
                /\ contains (lit "  ") (render s) = false).
Proof.
  intros Ha Hb. repeat split.
  - intros n. apply render_run; assumption.
  - apply (render_run a b 2); assumption.
  - apply (render_run a b 4); assumption.
  - apply (render_run a b 3); assumption.
  - apply render_idempotent.
  - apply render_idempotent.
  - apply contains_char, render_no_newline.
  - rewrite render_unfold. apply replace_spaces_clean.
Qed.

Lemma render_space_runs_witness :
  render (lit "a" ++ lit "  " ++ lit "b") = lit "a&nbsp;&nbsp;b"
  /\ render (lit "a" ++ lit "    " ++ lit "b") = lit "a&nbsp;&nbsp;&nbsp;&nbsp;b"
  /\ render (lit "a" ++ lit "   " ++ lit "b") = lit "a&nbsp;&nbsp; b".
Proof.
  assert (Ha : forall p, lit "a" <> p ++ [space]).
  { intros [|x [|y p]] H; discriminate H. }
  assert (Hb : forall q, lit "b" <> space :: q).
  { intros q H; discriminate H. }
  destruct (render_space_runs (lit "a") (lit "b") Ha Hb)
    as (_ & H2 & H4 & H3 & _ & _ & _).
  rewrite H2, H4, H3. repeat split.
Defined.

(** C7 as stated fails: the encoding is idempotent on the run of three
    spaces, on every longer run, and on every text. *)
Lemma render_idempotent_on_runs :
  render (render (lit "   ")) = render (lit "   ")
  /\ ~ (exists n, 3 <= n /\
          render (render (repeat space n)) <> render (repeat space n))
  /\ ~ (exists s, render (render s) <> render s).
Proof.
  split; [apply render_idempotent|]. split.
  - intros (n & _ & H). apply H, render_idempotent.
  - intros (s & H). apply H, render_idempotent.
Qed.

(** ** The matcher on patterns without a group *)

Lemma flat_map_map {A B C : Type} (f : B -> list C) (g : A -> B)
    (l : list A) :
  flat_map f (map g l) = flat_map (fun x => f (g x)) l.
Proof.
  induction l as [|x l IH]; simpl; [reflexivity|]. rewrite IH. reflexivity.
Qed.

Lemma map_flat_map {A B C : Type} (f : A -> list B) (g : B -> C)
    (l : list A) :
  map g (flat_map f l) = flat_map (fun x => map g (f x)) l.
Proof.
  induction l as [|x l IH]; simpl; [reflexivity|].
  rewrite map_app, IH. reflexivity.
Qed.

Lemma filter_shorter_with_group (c c' : option str) (s : str)
    (l : list state) :
  filter (shorter (c, s)) (map (with_group c) l) =
  map (with_group c) (filter (shorter (c', s)) l).
Proof.
  induction l as [|st l IH]; [reflexivity|].
  cbn [map filter].
  change (shorter (c, s) (with_group c st)) with (shorter (c', s) st).
  destruct (shorter (c', s) st); cbn [map]; rewrite IH; reflexivity.
Qed.

Lemma iterate_with_group (body : state -> list state) (g : bool) :
  (forall c c' s, body (c, s) = map (with_group c) (body (c', s))) ->
  forall fuel c c' s,
    iterate body g fuel (c, s) =
    map (with_group c) (iterate body g fuel (c', s)).
Proof.
  intros Hbody. induction fuel as [|fuel IH]; intros c c' s;
    [reflexivity|].
  cbn [iterate].
  assert (E : flat_map (iterate body g fuel)
                (filter (shorter (c, s)) (body (c, s))) =
              map (with_group c)
                (flat_map (iterate body g fuel)
                   (filter (shorter (c', s)) (body (c', s))))).
  { rewrite (Hbody c c' s), (filter_shorter_with_group c c').
    rewrite flat_map_map, map_flat_map.
    apply flat_map_ext. intros [c1 t]. apply IH. }
  rewrite E. destruct g.
  - rewrite map_app. reflexivity.
  - reflexivity.
Qed.

(** A pattern without a group leaves group 1 as it finds it, and matches
    the same texts whatever group 1 holds. *)
Lemma m_with_group (r : regex) :
  group_free r = true ->
  forall c c' s, m r (c, s) = map (with_group c) (m r (c', s)).
Proof.
  induction r as [|p|r1 IH1 r2 IH2|r1 IH1 r2 IH2|g r IH|r IH|r IH];
    cbn [group_free]; intros G c c' s.
  - reflexivity.
  - cbn [m snd fst]. destruct s as [|x s]; [reflexivity|].
    destruct (p x); reflexivity.
  - apply andb_true_iff in G. destruct G as [G1 G2].
    cbn [m]. rewrite (IH1 G1 c c' s), flat_map_map, map_flat_map.
    apply flat_map_ext. intros [c1 t]. apply (IH2 G2).
  - apply andb_true_iff in G. destruct G as [G1 G2].
    cbn [m]. rewrite (IH1 G1 c c' s), (IH2 G2 c c' s), map_app. reflexivity.
  - cbn [m snd]. apply iterate_with_group. exact (IH G).
  - cbn [m]. rewrite (IH G c c' s).
    destruct (m r (c', s)); reflexivity.
  - discriminate G.
Qed.

Lemma m_remainders (r : regex) (c : option str) (s : str) :
  group_free r = true ->
  m r (c, s) = map (pair c) (remainders r s).
Proof.
  intros G. unfold remainders. rewrite (m_with_group r G c None s), map_map.
  reflexivity.
Qed.

Lemma remainders_Seq (r1 r2 : regex) (s : str) :
  group_free r1 = true -> group_free r2 = true ->
  remainders (Seq r1 r2) s = flat_map (remainders r2) (remainders r1 s).
Proof.
  intros G1 G2. unfold remainders at 1. cbn [m].
  rewrite (m_remainders r1 None s G1), flat_map_map, map_flat_map.
  reflexivity.
Qed.

Lemma remainders_Alt (r1 r2 : regex) (s : str) :
  remainders (Alt r1 r2) s = remainders r1 s ++ remainders r2 s.
Proof. unfold remainders. cbn [m]. apply map_app. Qed.

Lemma remainders_Chr (p : ascii -> bool) (s : str) :
  remainders (Chr p) s =
  match s with
  | c :: s' => if p c then [s'] else []
  | [] => []
  end.
Proof.
  unfold remainders. cbn [m snd fst]. destruct s as [|c s]; [reflexivity|].
  destruct (p c); reflexivity.
Qed.

(** *** Words, runs of a class, and the lazy star *)

Lemma group_free_word (f : ascii -> regex) (w : str) :
  (forall c, group_free (f c) = true) -> group_free (word f w) = true.
Proof.
  intros H. induction w as [|c w IH]; [reflexivity|].
  cbn [word group_free]. rewrite H, IH. reflexivity.
Qed.

Lemma group_free_word_ci (w : str) : group_free (word LitI w) = true.
Proof. apply group_free_word. reflexivity. Qed.

Lemma remainders_word_ci (w s : str) :
  remainders (word LitI w) s =
  if startswith w (map lower s) then [skipn (length w) s] else [].
Proof.
  revert s; induction w as [|x w IH]; intros s; [reflexivity|].
  cbn [word]. rewrite remainders_Seq by (reflexivity || apply group_free_word_ci).
  unfold LitI. rewrite remainders_Chr.
  destruct s as [|y s]; [reflexivity|].
  cbn [map startswith length skipn]. rewrite (Ascii.eqb_sym x (lower y)).
  destruct (Ascii.eqb (lower y) x); [|reflexivity].
  cbn [flat_map andb]. rewrite IH, app_nil_r. reflexivity.
Qed.

Lemma iterate_class_greedy (p : ascii -> bool) (fuel : nat) (c : option str)
    (s : str) :
  length s <= fuel ->
  iterate (m (Chr p)) true fuel (c, s) = map (pair c) (greedy_run p s).
Proof.
  revert s; induction fuel as [|fuel IH]; intros s H.
  - destruct s; [reflexivity | simpl in H; lia].
  - cbn [iterate m snd fst]. destruct s as [|x s]; [reflexivity|].
    cbn [greedy_run]. destruct (p x); [|reflexivity].
    cbn [filter]. unfold shorter. cbn [snd length].
    replace (length s <? S (length s)) with true
      by (symmetry; apply Nat.ltb_lt; lia).
    cbn [flat_map]. rewrite app_nil_r, IH by (simpl in H; lia).
    rewrite map_app. reflexivity.
Qed.

Lemma remainders_star_class (p : ascii -> bool) (s : str) :
  remainders (Star true (Chr p)) s = greedy_run p s.
Proof.
  unfold remainders.
  change (m (Star true (Chr p)) (None, s))
    with (iterate (m (Chr p)) true (length s) (None, s)).
  rewrite iterate_class_greedy by lia.
  rewrite map_map. cbn [snd]. apply map_id.
Qed.

Lemma iterate_any_lazy (fuel : nat) (c : option str) (s : str) :
  length s <= fuel ->
  iterate (m (Chr (fun _ => true))) false fuel (c, s) =
  map (pair c) (tails s).
Proof.
  revert s; induction fuel as [|fuel IH]; intros s H.
  - destruct s; [reflexivity | simpl in H; lia].
  - cbn [iterate m snd fst]. destruct s as [|x s]; [reflexivity|].
    cbn [filter]. unfold shorter. cbn [snd length].
    replace (length s <? S (length s)) with true
      by (symmetry; apply Nat.ltb_lt; lia).
    cbn [flat_map tails map]. rewrite app_nil_r, IH by (simpl in H; lia).
    destruct s; reflexivity.
Qed.

Lemma m_lazy_any (c : option str) (s : str) :
  m (Star false (Chr (fun _ => true))) (c, s) = map (pair c) (tails s).
Proof.
  change (m (Star false (Chr (fun _ => true))) (c, s))
    with (iterate (m (Chr (fun _ => true))) false (length s) (c, s)).
  apply iterate_any_lazy. lia.
Qed.

Lemma in_greedy_run (p : ascii -> bool) (s t : str) :
  In t (greedy_run p s) <-> exists w, s = w ++ t /\ forallb p w = true.
Proof.
  revert t; induction s as [|c s IH]; intros t; cbn [greedy_run].
  - split.
    + intros [<-|[]]. exists []. auto.
    + intros (w & E & _). symmetry in E. apply app_eq_nil in E.
      destruct E as [_ ->]. left. reflexivity.
  - destruct (p c) eqn:Ep.
    + rewrite in_app_iff, IH. split.
      * intros [(w & -> & Hw)|[<-|[]]].
        -- exists (c :: w). cbn [forallb]. rewrite Ep, Hw. auto.
        -- exists []. auto.
      * intros ([|x w] & E & Hw).
        -- right. left. exact E.
        -- left. inversion E; subst. exists w. cbn [forallb] in Hw.
           apply andb_true_iff in Hw. tauto.
    + split.
      * intros [<-|[]]. exists []. auto.
      * intros ([|x w] & E & Hw).
        -- left. exact E.
        -- inversion E; subst. cbn [forallb] in Hw. rewrite Ep in Hw.
           discriminate Hw.
Qed.

Lemma in_tails (s t : str) : In t (tails s) <-> exists w, s = w ++ t.
Proof.
  revert t; induction s as [|c s IH]; intros t; cbn [tails].
  - split.
    + intros [<-|[]]. exists []. reflexivity.
    + intros (w & E). symmetry in E. apply app_eq_nil in E.
      destruct E as [_ ->]. left. reflexivity.
  - split.
    + intros [<-|H].
      * exists []. reflexivity.
      * assert (H' : In t (tails s)) by (destruct s; exact H).
        apply IH in H'. destruct H' as (w & ->). exists (c :: w). reflexivity.
    + intros ([|x w] & E).
      * left. exact E.
      * right. inversion E; subst.
        assert (H' : In t (tails (w ++ t))) by (apply IH; eauto).
        destruct (w ++ t); exact H'.
Qed.

(** *** Membership in the remainders *)

Lemma in_remainders_Seq (r1 r2 : regex) (s t : str) :
  group_free r1 = true -> group_free r2 = true ->
  (In t (remainders (Seq r1 r2) s) <->
   exists u, In u (remainders r1 s) /\ In t (remainders r2 u)).
Proof.
  intros G1 G2. rewrite remainders_Seq by assumption. apply in_flat_map.
Qed.

Lemma in_remainders_Chr (p : ascii -> bool) (s t : str) :
  In t (remainders (Chr p) s) <-> exists c, s = c :: t /\ p c = true.
Proof.
  rewrite remainders_Chr. destruct s as [|c s].
  - split; [intros [] | intros (c & E & _); discriminate E].
  - destruct (p c) eqn:Ep; split.
    + intros [<-|[]]. exists c. split; [reflexivity | exact Ep].
    + intros (x & E & _). inversion E. left. reflexivity.
    + intros [].
    + intros (x & E & Hx). inversion E; subst. congruence.
Qed.

Lemma in_remainders_star (p : ascii -> bool) (s t : str) :
  In t (remainders (Star true (Chr p)) s) <->
  exists w, s = w ++ t /\ forallb p w = true.
Proof. rewrite remainders_star_class. apply in_greedy_run. Qed.

Lemma in_remainders_plus (p : ascii -> bool) (s t : str) :
  In t (remainders (Plus (Chr p)) s) <->
  exists c w, s = (c :: w) ++ t /\ forallb p (c :: w) = true.
Proof.
  unfold Plus. rewrite in_remainders_Seq by reflexivity. split.
  - intros (u & Hu & Ht). apply in_remainders_Chr in Hu.
    apply in_remainders_star in Ht.
    destruct Hu as (c & -> & Hc), Ht as (w & -> & Hw).
    exists c, w. cbn [forallb]. rewrite Hc, Hw. auto.
  - intros (c & w & -> & H). cbn [forallb] in H.
    apply andb_true_iff in H. destruct H as [Hc Hw].
    exists (w ++ t). split.
    + apply in_remainders_Chr. exists c. split; [reflexivity | exact Hc].
    + apply in_remainders_star. exists w. split; [reflexivity | exact Hw].
Qed.

Lemma in_remainders_word_ci (w s t : str) :
  In t (remainders (word LitI w) s) <->
  startswith_ci w s = true /\ t = skipn (length w) s.
Proof.
  rewrite remainders_word_ci. unfold startswith_ci.
  destruct (startswith w (map lower s)); split.
  - intros [<-|[]]. auto.
  - intros [_ ->]. left. reflexivity.
  - intros [].
  - intros [H _]. discriminate H.
Qed.

(** ** Section boundaries *)

Lemma group_free_boundary : group_free boundary_re = true.
Proof. reflexivity. Qed.

Lemma lower_one (c : ascii) : Ascii.eqb (lower c) "1"%char = true -> c = "1"%char.
Proof.
  unfold lower. destruct (between 65 90 c) eqn:B.
  - intros H. apply Ascii.eqb_eq in H.
    apply (f_equal nat_of_ascii) in H.
    unfold between in B. apply andb_true_iff in B. destruct B as [B1 B2].
    apply Nat.leb_le in B1, B2.
    rewrite nat_ascii_embedding in H by lia.
    change (nat_of_ascii "1") with 49 in H. lia.
  - apply Ascii.eqb_eq.
Qed.

Lemma nonempty_true {A : Type} (l : list A) :
  match l with [] => false | _ :: _ => true end = true <-> exists x, In x l.
Proof.
  destruct l as [|x l]; split.
  - discriminate.
  - intros (x & []).
  - intros _. exists x. left. reflexivity.
  - reflexivity.
Qed.

Lemma section_re_matches (s : str) :
  (exists t, In t (remainders section_re s)) <-> section_start s.
Proof.
  unfold section_re, section_start, Lit, ws, digit. split.
  - intros (t & H).
    apply in_remainders_Seq in H; [|reflexivity..].
    destruct H as (u1 & H1 & H).
    apply in_remainders_Seq in H; [|reflexivity..].
    destruct H as (u2 & H2 & H).
    apply in_remainders_Seq in H; [|reflexivity..].
    destruct H as (u3 & H3 & H4).
    apply in_remainders_Chr in H1. destruct H1 as (c & -> & Hc).
    apply Ascii.eqb_eq in Hc. subst c.
    apply in_remainders_star in H2. destruct H2 as (w & -> & Hw).
    apply in_remainders_plus in H3. destruct H3 as (d & ds & -> & Hd).
    apply in_remainders_plus in H4. destruct H4 as (v & vs & -> & Hv).
    exists w, d, ds, v, vs, t. auto.
  - intros (w & d & ds & v & vs & t & -> & Hw & Hd & Hv).
    exists t.
    apply in_remainders_Seq; [reflexivity..|].
    exists (w ++ (d :: ds) ++ (v :: vs) ++ t). split.
    { apply in_remainders_Chr. exists NL. split; [reflexivity|].
      apply Ascii.eqb_refl. }
    apply in_remainders_Seq; [reflexivity..|].
    exists ((d :: ds) ++ (v :: vs) ++ t). split.
    { apply in_remainders_star. exists w. split; [reflexivity | exact Hw]. }
    apply in_remainders_Seq; [reflexivity..|].
    exists ((v :: vs) ++ t). split.
    { apply in_remainders_plus. exists d, ds.
      split; [reflexivity | exact Hd]. }
    apply in_remainders_plus. exists v, vs. split; [reflexivity | exact Hv].
Qed.

Lemma intro_re_matches (s : str) :
  (exists t, In t (remainders intro_re s)) <-> intro_start s.
Proof.
  unfold intro_re, intro_start, Lit, ws.
  assert (G : group_free (word LitI (lit "introduction")) = true)
    by reflexivity.
  split.
  - intros (t & H).
    apply in_remainders_Seq in H; [|reflexivity..].
    destruct H as (u1 & H1 & H).
    apply in_remainders_Seq in H; [|reflexivity..].
    destruct H as (u2 & H2 & H).
    apply in_remainders_Seq in H; [|reflexivity..].
    destruct H as (u3 & H3 & H).
    apply in_remainders_Seq in H; [|reflexivity..].
    destruct H as (u4 & H4 & H5).
    apply in_remainders_Chr in H1. destruct H1 as (c & -> & Hc).
    apply Ascii.eqb_eq in Hc. subst c.
    apply in_remainders_star in H2. destruct H2 as (w & -> & Hw).
    apply in_remainders_Chr in H3. destruct H3 as (c & -> & Hc).
    apply lower_one in Hc. subst c.
    apply in_remainders_plus in H4. destruct H4 as (v & vs & -> & Hv).
    apply in_remainders_word_ci in H5. destruct H5 as [Hi _].
    exists w, v, vs, u4. auto.
  - intros (w & v & vs & t & -> & Hw & Hv & Hi).
    exists (skipn (length (lit "introduction")) t).
    apply in_remainders_Seq; [reflexivity..|].
    exists (w ++ "1"%char :: (v :: vs) ++ t). split.
    { apply in_remainders_Chr. exists NL. split; [reflexivity|].
      apply Ascii.eqb_refl. }
    apply in_remainders_Seq; [reflexivity..|].
    exists ("1"%char :: (v :: vs) ++ t). split.
    { apply in_remainders_star. exists w. split; [reflexivity | exact Hw]. }
    apply in_remainders_Seq; [reflexivity..|].
    exists ((v :: vs) ++ t). split.
    { apply in_remainders_Chr. exists "1"%char. split; reflexivity. }
    apply in_remainders_Seq; [reflexivity..|].
    exists t. split.
    { apply in_remainders_plus. exists v, vs.
      split; [reflexivity | exact Hv]. }
    apply in_remainders_word_ci. split; [exact Hi | reflexivity].
Qed.

(** The lookahead succeeds exactly at a section boundary. *)
Lemma boundary_here_iff (s : str) :
  boundary_here s = true <-> boundary_at s.
Proof.
  unfold boundary_here, boundary_at, boundary_re.
  rewrite nonempty_true, <- section_re_matches, <- intro_re_matches.
  split.
  - intros (t & H). rewrite remainders_Alt in H. apply in_app_iff in H.
    destruct H; eauto.
  - intros [(t & H)|(t & H)]; exists t; rewrite remainders_Alt;
      apply in_app_iff; auto.
Qed.

(** ** What the abstract pattern captures *)

Lemma search_unfold (r : regex) (text : str) :
  search r text =
  match group_of (m r (None, text)) with
  | Some g => Some g
  | None =>
      match text with
      | [] => None
      | _ :: text' => search r text'
      end
  end.
Proof.
  destruct text; cbn [search]; case_match_at r; reflexivity.
Qed.

Lemma group_of_app (a b : list state) :
  group_of (a ++ b) =
  match group_of a with
  | Some g => Some g
  | None => group_of b
  end.
Proof. destruct a; reflexivity. Qed.

Lemma tails_splits (s : str) : tails s = map snd (splits s).
Proof.
  induction s as [|c s IH]; [reflexivity|].
  cbn [tails splits map snd]. f_equal. rewrite map_map. exact IH.
Qed.

Lemma splits_append (s : str) :
  Forall (fun ab => fst ab ++ snd ab = s) (splits s).
Proof.
  induction s as [|c s IH]; cbn [splits].
  - constructor; [reflexivity | constructor].
  - constructor; [reflexivity|].
    apply Forall_map. cbn [fst snd].
    eapply Forall_impl; [|exact IH].
    intros [a b] H. cbn [fst snd app] in *. congruence.
Qed.

(** The lazy group closes on a prefix of the text, the shortest first. *)
Lemma m_lazy_group (c : option str) (s : str) :
  m (Grp (Star false (Chr (fun _ => true)))) (c, s) =
  map (fun ab => (Some (fst ab), snd ab)) (splits s).
Proof.
  change (m (Grp (Star false (Chr (fun _ => true)))) (c, s))
    with (map (fun st' : state =>
                 (Some (firstn (length s - length (snd st')) s), snd st'))
              (m (Star false (Chr (fun _ => true))) (c, s))).
  rewrite m_lazy_any, tails_splits, !map_map. cbn [snd].
  apply map_ext_in. intros [a b] Hin. cbn [fst snd].
  pose proof (splits_append s) as F. rewrite Forall_forall in F.
  specialize (F _ Hin). cbn [fst snd] in F. subst s.
  rewrite length_app.
  replace (length a + length b - length b) with (length a) by lia.
  rewrite firstn_app, firstn_all, Nat.sub_diag. cbn [firstn].
  rewrite app_nil_r. reflexivity.
Qed.

Lemma m_lookahead_boundary (c : option str) (s : str) :
  m (Look boundary_re) (c, s) = if boundary_here s then [(c, s)] else [].
Proof.
  change (m (Look boundary_re) (c, s))
    with (match m boundary_re (c, s) with [] => [] | _ :: _ => [(c, s)] end).
  rewrite (m_remainders boundary_re c s group_free_boundary).
  unfold boundary_here. destruct (remainders boundary_re s); reflexivity.
Qed.

Lemma cut_of_splits (k : str -> str) (s : str) :
  group_of (flat_map (m (Look boundary_re))
              (map (fun ab => (Some (k (fst ab)), snd ab)) (splits s))) =
  option_map (fun body => Some (k body)) (first_cut s).
Proof.
  revert k; induction s as [|x s IH]; intros k; cbn [splits map flat_map].
  - rewrite m_lookahead_boundary. cbn [fst snd first_cut].
    destruct (boundary_here []); reflexivity.
  - rewrite m_lookahead_boundary. cbn [fst snd first_cut].
    destruct (boundary_here (x :: s)); [reflexivity|].
    cbn [app]. rewrite map_map. cbn [fst snd].
    rewrite (IH (fun a => k (x :: a))).
    destruct (first_cut s); reflexivity.
Qed.

Lemma group_of_after_spaces (c : option str) (s : str) :
  group_of (m after_spaces_re (c, s)) = option_map Some (first_cut s).
Proof.
  change (m after_spaces_re (c, s))
    with (flat_map (m (Look boundary_re))
            (m (Grp (Star false (Chr (fun _ => true)))) (c, s))).
  rewrite m_lazy_group. apply (cut_of_splits (fun a => a)).
Qed.

Lemma group_of_after_marker (s : str) :
  group_of (m (Seq (Star true ws) after_spaces_re) (None, s)) =
  option_map Some (capture_after s).
Proof.
  change (m (Seq (Star true ws) after_spaces_re) (None, s))
    with (flat_map (m after_spaces_re) (m (Star true ws) (None, s))).
  rewrite (m_remainders (Star true ws) None s eq_refl).
  unfold ws. rewrite remainders_star_class. unfold capture_after.
  induction (greedy_run isspace s) as [|t l IH]; [reflexivity|].
  cbn [map flat_map first_some]. rewrite group_of_app, group_of_after_spaces.
  destruct (first_cut t); [reflexivity | exact IH].
Qed.

Lemma group_of_abstract (s : str) :
  group_of (m abstract_re (None, s)) = option_map Some (capture_at s).
Proof.
  change (m abstract_re (None, s))
    with (flat_map (m (Seq (Star true ws) after_spaces_re))
            (m (word LitI (lit "abstract")) (None, s))).
  rewrite (m_remainders _ None s (group_free_word_ci (lit "abstract"))).
  rewrite remainders_word_ci. unfold capture_at, startswith_ci.
  destruct (startswith (lit "abstract") (map lower s)); [|reflexivity].
  cbn [map flat_map]. rewrite app_nil_r. apply group_of_after_marker.
Qed.

(** The search of the abstract pattern, without the engine. *)
Lemma search_abstract (text : str) :
  search abstract_re text = option_map Some (abstract_capture text).
Proof.
  induction text as [|c t IH]; rewrite search_unfold, group_of_abstract;
    cbn [abstract_capture]; destruct (capture_at _); try reflexivity.
  exact IH.
Qed.

Lemma captured_abstract_eq (text : str) :
  captured_abstract text =
  match abstract_capture text with
  | Some body => strip body
  | None => abstract_not_found
  end.
Proof.
  unfold captured_abstract. rewrite search_abstract.
  destruct (abstract_capture text); reflexivity.
Qed.

(** *** The capture, from the shape of the text *)

Lemma first_cut_none (s : str) :
  (forall a b, s = a ++ b -> boundary_here b = false) -> first_cut s = None.
Proof.
  induction s as [|c s IH]; intros H; cbn [first_cut].
  - rewrite (H [] [] eq_refl). reflexivity.
  - rewrite (H [] (c :: s) eq_refl), IH; [reflexivity|].
    intros a b E. apply (H (c :: a) b). rewrite E. reflexivity.
Qed.

Lemma first_cut_some (body rest : str) :
  boundary_here rest = true ->
  (forall a b, body = a ++ b -> b <> [] -> boundary_here (b ++ rest) = false) ->
  first_cut (body ++ rest) = Some body.
Proof.
  intros Hr. induction body as [|c body IH]; intros H.
  - cbn [app]. destruct rest; cbn [first_cut]; rewrite Hr; reflexivity.
  - assert (H0 : boundary_here ((c :: body) ++ rest) = false)
      by (apply (H [] (c :: body) eq_refl); discriminate).
    cbn [app first_cut] in *. rewrite H0.
    rewrite IH; [reflexivity|].
    intros a b E Hb. apply (H (c :: a) b); [rewrite E; reflexivity | exact Hb].
Qed.

Lemma first_some_none {A B : Type} (f : A -> option B) (l : list A) :
  (forall x, In x l -> f x = None) -> first_some f l = None.
Proof.
  induction l as [|x l IH]; intros H; [reflexivity|].
  cbn [first_some]. rewrite (H x) by (left; reflexivity).
  apply IH. intros y Hy. apply H. right. exact Hy.
Qed.

Lemma capture_after_none (s : str) :
  (forall a b, s = a ++ b -> boundary_here b = false) ->
  capture_after s = None.
Proof.
  intros H. apply first_some_none. intros t Ht.
  apply in_greedy_run in Ht. destruct Ht as (w & -> & _).
  apply first_cut_none. intros a b E. apply (H (w ++ a) b).
  rewrite E, app_assoc. reflexivity.
Qed.

Lemma abstract_capture_none (s : str) :
  (forall a b, s = a ++ b -> startswith_ci (lit "abstract") b = true ->
     forall c d, skipn (length (lit "abstract")) b = c ++ d ->
                 boundary_here d = false) ->
  abstract_capture s = None.
Proof.
  induction s as [|x s IH]; intros H.
  - cbn [abstract_capture]. reflexivity.
  - cbn [abstract_capture].
    assert (E : capture_at (x :: s) = None).
    { unfold capture_at.
      destruct (startswith_ci (lit "abstract") (x :: s)) eqn:Es;
        [|reflexivity].
      apply capture_after_none. intros c d. apply (H [] (x :: s) eq_refl Es). }
    rewrite E. apply IH. intros a b Eab. apply (H (x :: a) b).
    rewrite Eab. reflexivity.
Qed.

(** No match starts where the marker does not. *)
Lemma abstract_capture_skip (pre s : str) :
  (forall a b, pre ++ s = a ++ b -> length a < length pre ->
     startswith_ci (lit "abstract") b = false) ->
  abstract_capture (pre ++ s) = abstract_capture s.
Proof.
  induction pre as [|x pre IH]; intros H; [reflexivity|].
  assert (H0 : capture_at ((x :: pre) ++ s) = None).
  { unfold capture_at.
    rewrite (H [] ((x :: pre) ++ s) eq_refl) by (simpl; lia). reflexivity. }
  cbn [app abstract_capture] in *. rewrite H0.
  apply IH. intros a b E Hlen. apply (H (x :: a) b).
  - cbn [app]. rewrite E. reflexivity.
  - simpl. lia.
Qed.

Lemma greedy_run_spaces (s : str) :
  exists l, greedy_run isspace s = lstrip s :: l.
Proof.
  induction s as [|c s (l & IH)]; cbn [greedy_run lstrip].
  - exists []. reflexivity.
  - destruct (isspace c).
    + rewrite IH. exists (l ++ [c :: s]). reflexivity.
    + exists []. reflexivity.
Qed.

Lemma lstrip_spaces (gap s : str) :
  forallb isspace gap = true -> lstrip (gap ++ s) = lstrip s.
Proof.
  induction gap as [|c gap IH]; [reflexivity|].
  cbn [forallb app lstrip]. intros H. apply andb_true_iff in H.
  destruct H as [-> H]. apply IH, H.
Qed.

Lemma startswith_app (w t : str) : startswith w (w ++ t) = true.
Proof.
  induction w as [|c w IH]; [reflexivity|].
  cbn [app startswith]. rewrite Ascii.eqb_refl, IH. reflexivity.
Qed.

Lemma marker_here (mk s : str) :
  map lower mk = lit "abstract" ->
  startswith_ci (lit "abstract") (mk ++ s) = true
  /\ skipn (length (lit "abstract")) (mk ++ s) = s.
Proof.
  intros H. split.
  - unfold startswith_ci. rewrite map_app, H. apply startswith_app.
  - rewrite <- H, length_map, skipn_app, skipn_all, Nat.sub_diag.
    reflexivity.
Qed.

(** The marker, white space, a body that starts with no white space and
    reaches to the first boundary: the body is captured. *)
Lemma capture_at_marker (mk gap body rest : str) :
  map lower mk = lit "abstract" ->
  forallb isspace gap = true ->
  lstrip (body ++ rest) = body ++ rest ->
  boundary_here rest = true ->
  (forall a b, body = a ++ b -> b <> [] -> boundary_here (b ++ rest) = false) ->
  capture_at (mk ++ gap ++ body ++ rest) = Some body.
Proof.
  intros Hmk Hgap Hbody Hrest Hfirst.
  destruct (marker_here mk (gap ++ body ++ rest) Hmk) as [Hs Hk].
  unfold capture_at. rewrite Hs, Hk. unfold capture_after.
  destruct (greedy_run_spaces (gap ++ body ++ rest)) as (l & ->).
  rewrite (lstrip_spaces _ _ Hgap), Hbody. cbn [first_some].
  rewrite (first_cut_some _ _ Hrest Hfirst). reflexivity.
Qed.

Lemma abstract_capture_here (s : str) (body : str) :
  capture_at s = Some body -> abstract_capture s = Some body.
Proof. intros H. destruct s; cbn [abstract_capture]; rewrite H; reflexivity. Qed.

(** ** The abstract *)

Lemma returns_abstract_capture (text : str) :
  returns_abstract text
    (render match abstract_capture text with
            | Some body => strip body
            | None => abstract_not_found
            end).
Proof.
  unfold returns_abstract. rewrite extract_metadata_ok.
  unfold abstract_value. rewrite captured_abstract_eq. eauto.
Qed.

Lemma not_boundary (s : str) : ~ boundary_at s -> boundary_here s = false.
Proof.
  intros H. destruct (boundary_here s) eqn:E; [|reflexivity].
  exfalso. apply H, boundary_here_iff, E.
Qed.

Lemma tails_nth (a b : str) : nth_error (tails (a ++ b)) (length a) = Some b.
Proof.
  induction a as [|x a IH]; [destruct b; reflexivity|].
  cbn [app tails length nth_error]. exact IH.
Qed.

(** The two conditions on the suffixes of a given text, by evaluation. *)
Lemma no_boundary_check (rest : str) :
  forallb (fun b => negb (boundary_here b)) (tails rest) = true ->
  forall a b, rest = a ++ b -> ~ boundary_at b.
Proof.
  intros H a b E Hb. rewrite forallb_forall in H.
  assert (Hin : In b (tails rest)) by (apply in_tails; eauto).
  apply H in Hin. apply boundary_here_iff in Hb. rewrite Hb in Hin.
  discriminate Hin.
Qed.

Lemma first_marker_check (text pre : str) :
  forallb (fun b => negb (startswith_ci (lit "abstract") b))
          (firstn (length pre) (tails text)) = true ->
  first_marker text pre.
Proof.
  intros H a b E Hlen. rewrite forallb_forall in H.
  assert (Hin : In b (firstn (length pre) (tails text))).
  { subst text. pose proof (tails_nth a b) as Hn.
    apply nth_error_In with (n := length a).
    rewrite nth_error_firstn.
    replace (length a <? length pre) with true
      by (symmetry; apply Nat.ltb_lt; exact Hlen).
    exact Hn. }
  apply H in Hin. destruct (startswith_ci (lit "abstract") b);
    [discriminate Hin | reflexivity].
Qed.

(** C4. When the first occurrence of the marker is followed by no section
    boundary (no newline, optional white space, digits, white space, and no
    newline, optional white space, "1 introduction"), the abstract is the
    placeholder, although the marker is there. *)
Theorem abstract_without_boundary (text pre mk rest : str) :
  text = pre ++ mk ++ rest ->
  map lower mk = lit "abstract" ->
  first_marker text pre ->
  (forall a b, rest = a ++ b -> ~ boundary_at b) ->
  returns_abstract text (lit "Abstract not found").
Proof.
  intros -> Hmk Hfirst Hnone.
  pose proof (returns_abstract_capture (pre ++ mk ++ rest)) as R.
  rewrite (abstract_capture_skip pre (mk ++ rest) Hfirst) in R.
  rewrite abstract_capture_none in R; [exact R|].
  intros a b E _ c d Hcd. apply not_boundary.
  assert (Hlen : length mk = length (lit "abstract"))
    by (rewrite <- Hmk; symmetry; apply length_map).
  assert (Eb : b = skipn (length a) (mk ++ rest)).
  { rewrite E, skipn_app, skipn_all, Nat.sub_diag. reflexivity. }
  rewrite Eb, skipn_skipn, skipn_app, <- Hlen in Hcd.
  rewrite (skipn_all2 (n := length mk + length a)) in Hcd by lia.
  replace (length mk + length a - length mk) with (length a) in Hcd by lia.
  cbn [app] in Hcd.
  apply (Hnone (firstn (length a) rest ++ c) d).
  rewrite <- app_assoc, <- Hcd, firstn_skipn. reflexivity.
Qed.

Lemma abstract_without_boundary_witness :
  returns_abstract no_boundary_example (lit "Abstract not found").
Proof.
  apply (abstract_without_boundary no_boundary_example
           (text_of_lines ["My Great Paper"; ""]) (lit "Abstract")
           (text_of_lines [""; "We study X."; "Introduction"])).
  - reflexivity.
  - reflexivity.
  - apply first_marker_check. vm_compute. reflexivity.
  - apply no_boundary_check. vm_compute. reflexivity.
Defined.

(** Where the abstract search agrees with the specification.  Without the
    marker the abstract is the placeholder.  With it, the white space after
    its first occurrence is passed over, and the abstract is the text from
    there to the first section boundary that starts at or after that point,
    trimmed and encoded. *)
Theorem abstract_between_marker_and_boundary (text : str) :
  ((forall a b, text = a ++ b -> startswith_ci (lit "abstract") b = false) ->
   returns_abstract text (lit "Abstract not found"))
  /\ (forall pre mk gap body rest,
        text = pre ++ mk ++ gap ++ body ++ rest ->
        map lower mk = lit "abstract" ->
        first_marker text pre ->
        forallb isspace gap = true ->
        lstrip (body ++ rest) = body ++ rest ->
        boundary_at rest ->
        (forall a b, body = a ++ b -> b <> [] -> ~ boundary_at (b ++ rest)) ->
        returns_abstract text (render (strip body))).
Proof.
  split.
  - intros Hno. pose proof (returns_abstract_capture text) as R.
    rewrite abstract_capture_none in R; [exact R|].
    intros a b E Hs. rewrite (Hno a b E) in Hs. discriminate Hs.
  - intros pre mk gap body rest -> Hmk Hfirst Hgap Hbody Hrest Hearliest.
    pose proof (returns_abstract_capture (pre ++ mk ++ gap ++ body ++ rest))
      as R.
    rewrite (abstract_capture_skip pre _ Hfirst) in R.
    rewrite (abstract_capture_here _ body) in R; [exact R|].
    apply capture_at_marker; try assumption.
    + apply boundary_here_iff, Hrest.
    + intros a b E Hb. apply not_boundary. exact (Hearliest a b E Hb).
Qed.

Lemma abstract_between_marker_and_boundary_witness :
  returns_abstract paper_example (lit "We study X.")
  /\ returns_abstract (lit "no marker here") (lit "Abstract not found").
Proof.
  split.
  - apply (proj2 (abstract_between_marker_and_boundary paper_example)
             (text_of_lines ["My Great Paper"; "Jane Doe1, John Smith2"; ""])
             (lit "Abstract") [NL] (lit "We study X.")
             (text_of_lines [""; "1 Introduction"; "..."])).
    + reflexivity.
    + reflexivity.
    + apply first_marker_check. vm_compute. reflexivity.
    + reflexivity.
    + reflexivity.
    + apply boundary_here_iff. vm_compute. reflexivity.
    + intros a b E Hb Hat. apply boundary_here_iff in Hat.
      assert (Hin : In b (tails (lit "We study X."))) by (apply in_tails; eauto).
      vm_compute in Hin.
      repeat (destruct Hin as [<-|Hin];
              [try (vm_compute in Hat; discriminate Hat);
               try (apply Hb; reflexivity) |]).
      exact Hin.
  - apply (proj1 (abstract_between_marker_and_boundary (lit "no marker here"))).
    intros a b E.
    assert (Hin : In b (tails (lit "no marker here")))
      by (apply in_tails; eauto).
    vm_compute in Hin.
    repeat (destruct Hin as [<-|Hin]; [reflexivity|]). destruct Hin.
Defined.

(** C3, at a marker that is followed at once by the boundary
    "1 Introduction" with a later boundary "2 Methods" after it: the text
    between the marker and the first boundary is empty, which is the
    abstract of the specification and of the comment "up to section
    1/Introduction"; in the code the greedy white space after the marker
    takes the newline of the first boundary, the capture runs on to the
    later boundary, and the heading and the introduction are returned as
    the abstract. *)
Lemma abstract_at_adjacent_boundary :
  returns_abstract empty_abstract_example (lit "1 Introduction<br>We study X.")
  /\ ~ abstract_as_claimed empty_abstract_example
         (lit "1 Introduction<br>We study X.").
Proof.
  split.
  - unfold returns_abstract. do 3 eexists. vm_compute. reflexivity.
  - intros [_ H].
    specialize (H [] (lit "Abstract") []
                  (text_of_lines
                     [""; "1 Introduction"; "We study X."; "2 Methods";
                      "..."])).
    assert (E : lit "1 Introduction<br>We study X." = render (strip [])).
    { apply H.
      - reflexivity.
      - reflexivity.
      - intros a b _ Hlen. simpl in Hlen. lia.
      - apply boundary_here_iff. vm_compute. reflexivity.
      - intros [|x a] b E Hb; [|discriminate E].
        simpl in E. congruence. }
    discriminate E.
Qed.

(** ** Marker lines *)

Lemma marker_re_head (s : str) :
  match group_of (m marker_re (None, s)) with
  | Some _ => true
  | None => false
  end = starts_marker s.
Proof.
  assert (G : group_free marker_re = true) by reflexivity.
  rewrite (m_remainders marker_re None s G). unfold marker_re.
  rewrite !remainders_Alt, !remainders_word_ci.
  unfold starts_marker, marker_words. cbn [existsb].
  destruct (startswith (lit "abstract") (map lower s)); [reflexivity|].
  destruct (startswith (lit "date") (map lower s)); [reflexivity|].
  destruct (startswith (lit "correspondence") (map lower s)); [reflexivity|].
  destruct (startswith (lit "affiliation") (map lower s)); reflexivity.
Qed.

Lemma existsb_orb {A : Type} (f g : A -> bool) (l : list A) :
  existsb (fun x => f x || g x) l = existsb f l || existsb g l.
Proof.
  induction l as [|x l IH]; [reflexivity|]. cbn [existsb]. rewrite IH.
  destruct (f x), (g x), (existsb f l); reflexivity.
Qed.

Lemma has_marker_unfold (s : str) :
  has_marker s =
  starts_marker s || match s with [] => false | _ :: s' => has_marker s' end.
Proof.
  unfold has_marker. rewrite search_unfold, <- marker_re_head.
  destruct (group_of (m marker_re (None, s))); destruct s; reflexivity.
Qed.

Lemma contains_marker_unfold (s : str) :
  contains_marker s =
  starts_marker s ||
  match s with [] => false | _ :: s' => contains_marker s' end.
Proof.
  unfold contains_marker, starts_marker. destruct s as [|c s].
  - reflexivity.
  - cbn [map contains]. apply existsb_orb.
Qed.

(** The regular expression of the loop looks for the marker words. *)
Lemma has_marker_spec (line : str) : has_marker line = contains_marker line.
Proof.
  induction line as [|c s IH];
    rewrite has_marker_unfold, contains_marker_unfold; [reflexivity|].
  rewrite IH. reflexivity.
Qed.

(** ** The title *)

Lemma join_cons (sep x : str) (xs : list str) :
  xs <> [] -> join sep (x :: xs) = x ++ sep ++ join sep xs.
Proof. destruct xs; [contradiction | reflexivity]. Qed.

(** Splitting keeps every character: joining the lines with newlines gives
    the text back. *)
Lemma join_split_nl (s : str) : join [NL] (split_nl s) = s.
Proof.
  induction s as [|c s IH]; [reflexivity|]. cbn [split_nl].
  destruct (Ascii.eqb c NL) eqn:E.
  - apply Ascii.eqb_eq in E. subst c.
    rewrite join_cons by apply split_nl_nonempty. rewrite IH. reflexivity.
  - destruct (split_nl s) as [|l ls] eqn:Es.
    + exfalso. exact (split_nl_nonempty s Es).
    + destruct ls as [|y ls].
      * cbn [join] in *. rewrite IH. reflexivity.
      * rewrite join_cons in * by discriminate.
        rewrite <- IH. reflexivity.
Qed.

Lemma split_nl_lines (s : str) : Forall (fun l => ~ In NL l) (split_nl s).
Proof.
  induction s as [|c s IH]; cbn [split_nl].
  - constructor; [intros [] | constructor].
  - destruct (Ascii.eqb c NL) eqn:E.
    + constructor; [intros [] | exact IH].
    + destruct (split_nl s) as [|l ls]; [constructor; [|constructor]|].
      * intros [->|[]]. rewrite Ascii.eqb_refl in E. discriminate.
      * inversion IH; subst. constructor; [|assumption].
        intros [->|H]; [|tauto]. rewrite Ascii.eqb_refl in E. discriminate.
Qed.

Lemma rstrip_head (c : ascii) (s t : str) (d : ascii) :
  rstrip (c :: s) = d :: t -> d = c.
Proof.
  rewrite rstrip_cons. destruct (rstrip s).
  - destruct (isspace c); [discriminate|]. intros H; inversion H. reflexivity.
  - intros H; inversion H. reflexivity.
Qed.

(** On a line that does not start with white space the test of the code and
    the test of the specification agree. *)
Lemma qualifies_agree (line : str) :
  lstrip line = line -> qualifies line = qualifies_as_claimed line.
Proof.
  intros H. unfold qualifies, qualifies_as_claimed, strip. rewrite H.
  destruct (rstrip line) as [|d t] eqn:E; [reflexivity|].
  destruct line as [|c l]; [discriminate E|].
  rewrite (rstrip_head c l t d E). reflexivity.
Qed.

Lemma find_agree {A : Type} (f g : A -> bool) (l : list A) :
  Forall (fun x => f x = g x) l -> find f l = find g l.
Proof.
  induction 1 as [|x l H _ IH]; [reflexivity|].
  cbn [find]. rewrite H, IH. reflexivity.
Qed.

(** What the title search does on every text: the title is the trimmed
    text of the first line, in the order of the text split at its newlines
    with blank lines kept, whose trimmed text is non-empty and either whose
    first character as the line stands (before trimming) is upper-case or
    whose trimmed text is longer than 10 characters; without such a line it
    is "Unknown Title".  When no line starts with white space this is the
    title of the specification, so the two part only at indented lines. *)
Theorem title_is_first_qualifying_line (text : str) :
  returns_title text
    match find qualifies (split_nl text) with
    | Some line => strip line
    | None => lit "Unknown Title"
    end
  /\ join [NL] (split_nl text) = text
  /\ Forall (fun line => ~ In NL line) (split_nl text)
  /\ (Forall (fun line => lstrip line = line) (split_nl text) ->
      returns_title text (title_as_claimed text)).
Proof.
  assert (R : returns_title text
                match find qualifies (split_nl text) with
                | Some line => strip line
                | None => lit "Unknown Title"
                end).
  { unfold returns_title. rewrite extract_metadata_ok. eauto. }
  split; [exact R|].
  split; [apply join_split_nl|].
  split; [apply split_nl_lines|].
  intros H. unfold title_as_claimed.
  rewrite <- (find_agree qualifies qualifies_as_claimed); [exact R|].
  eapply Forall_impl; [|exact H]. apply qualifies_agree.
Qed.

(** C2, at a short capitalised line that starts with a space: the first
    line of " Hello", "World" is non-empty and its trimmed text starts with
    an upper-case letter, so it is the title of the specification and of
    the comment "First significant line (non-empty, capitalized)"; the code
    tests [line[0]] of the line as it stands, a space, passes over the line
    and returns "World". *)
Lemma title_at_indented_line :
  returns_title indented_title_example (lit "World")
  /\ title_as_claimed indented_title_example = lit "Hello".
Proof.
  split.
  - unfold returns_title. do 3 eexists. vm_compute. reflexivity.
  - vm_compute. reflexivity.
Qed.

(** ** The author block *)

Lemma lstrip_chars (x : ascii) (s : str) : In x (lstrip s) -> In x s.
Proof.
  induction s as [|c s IH]; cbn [lstrip]; [tauto|].
  destruct (isspace c); [right; auto | tauto].
Qed.

Lemma strip_chars (x : ascii) (s : str) : In x (strip s) -> In x s.
Proof.
  unfold strip, rstrip. intros H.
  apply in_rev, lstrip_chars in H. rewrite <- in_rev in H.
  apply lstrip_chars, H.
Qed.

Lemma join_chars (x : ascii) (sep : str) (xs : list str) :
  In x (join sep xs) -> In x sep \/ exists l, In l xs /\ In x l.
Proof.
  induction xs as [|l xs IH]; [intros []|].
  destruct xs as [|y xs].
  - cbn [join]. intros H. right. exists l. split; [left; reflexivity | exact H].
  - rewrite join_cons by discriminate. rewrite !in_app_iff.
    intros [H|[H|H]].
    + right. exists l. split; [left; reflexivity | exact H].
    + left. exact H.
    + destruct (IH H) as [H'|(l' & Hl & Hx)]; [left; exact H'|].
      right. exists l'. split; [right; exact Hl | exact Hx].
Qed.

Lemma slice_incl {A : Type} (x : A) (xs : list A) (a b : nat) :
  In x (slice xs a b) -> In x xs.
Proof.
  unfold slice. intros H.
  rewrite <- (firstn_skipn a xs). apply in_or_app. right.
  rewrite <- (firstn_skipn (b - a) (skipn a xs)). apply in_or_app. left.
  exact H.
Qed.

(** The author block holds no newline: it is made of lines and spaces. *)
Lemma block_no_newline (text : str) : ~ In NL (block_value text).
Proof.
  unfold block_value, author_block. intros H.
  apply strip_chars, join_chars in H. destruct H as [H|(l & Hl & Hx)].
  - simpl in H. destruct H as [H|[]]. discriminate H.
  - apply slice_incl in Hl.
    pose proof (split_nl_lines text) as F. rewrite Forall_forall in F.
    exact (F l Hl Hx).
Qed.


Lemma find_first_seq (f : nat -> bool) (a n e : nat) :
  find f (seq a n) = Some e ->
  a <= e < a + n /\ f e = true /\ forall i, a <= i < e -> f i = false.
Proof.
  revert a; induction n as [|n IH]; intros a; cbn [seq find];
    [discriminate|].
  destruct (f a) eqn:Ea.
  - intros H; inversion H; subst.
    split; [lia|]. split; [exact Ea|]. intros i Hi. lia.
  - intros H. destruct (IH _ H) as (Hr & He & Hi).
    split; [lia|]. split; [exact He|].
    intros i Hlt. destruct (Nat.eq_dec i a) as [->|Hne]; [exact Ea|].
    apply Hi. lia.
Qed.



Lemma str_eqb_eq (a b : str) : str_eqb a b = true <-> a = b.
Proof.
  revert b; induction a as [|x a IH]; intros [|y b]; cbn [str_eqb];
    try (split; [discriminate | congruence]); try tauto.
  rewrite andb_true_iff, Ascii.eqb_eq, IH.
  split; [intros [-> ->]; reflexivity | intros H; inversion H; auto].
Qed.

Lemma position_nth (x : str) (xs : list str) (i : nat) :
  position x xs = Some i -> nth_error xs i = Some x.
Proof.
  revert i; induction xs as [|y ys IH]; intros i; cbn [position];
    [discriminate|].
  destruct (str_eqb y x) eqn:E.
  - intros H; inversion H; subst. apply str_eqb_eq in E. subst. reflexivity.
  - destruct (position x ys) as [j|]; [|discriminate].
    intros H; inversion H; subst. cbn [nth_error]. apply IH. reflexivity.
Qed.





(** ** Where the author scan starts *)

(** C6, at a title line that ends with a space: the trimmed title is not
    one of the lines as they stand, the scan starts at line 0 and not after
    the title line, and the title enters the authors. *)
Theorem author_scan_at_padded_title :
  extract_metadata padded_title_example =
  Ok (lit "Deep Nets", lit "Deep Nets  Jane Doe", lit "We study X.",
      render padded_title_example)
  /\ nth 0 (split_nl padded_title_example) [] = lit "Deep Nets "
  /\ mem (lit "Deep Nets") (split_nl padded_title_example) = false
  /\ start_value padded_title_example = 0
  /\ start_as_claimed padded_title_example = 1
  /\ end_value padded_title_example = 2.
Proof. repeat split; vm_compute; reflexivity. Qed.

(** ** What the results always are *)

(** A match reads on from where it stands: what is left is a suffix. *)
Lemma iterate_suffix (body : state -> list state) (g : bool) :
  (forall st st', In st' (body st) -> exists p, snd st = p ++ snd st') ->
  forall fuel st st',
    In st' (iterate body g fuel st) -> exists p, snd st = p ++ snd st'.
Proof.
  intros Hbody. induction fuel as [|fuel IH]; intros st st'; cbn [iterate].
  - intros [<-|[]]. exists []. reflexivity.
  - assert (Hmore : In st' (flat_map (iterate body g fuel)
                              (filter (shorter st) (body st))) ->
                    exists p, snd st = p ++ snd st').
    { intros H. apply in_flat_map in H. destruct H as (st1 & H1 & H2).
      apply filter_In in H1. destruct H1 as [H1 _].
      destruct (Hbody _ _ H1) as (p & Ep), (IH _ _ H2) as (q & Eq).
      exists (p ++ q). rewrite Ep, Eq, app_assoc. reflexivity. }
    destruct g.
    + rewrite in_app_iff. intros [H|[<-|[]]]; [exact (Hmore H)|].
      exists []. reflexivity.
    + intros [<-|H]; [exists []; reflexivity | exact (Hmore H)].
Qed.

Lemma m_suffix (r : regex) (st st' : state) :
  In st' (m r st) -> exists p, snd st = p ++ snd st'.
Proof.
  revert st st'.
  induction r as [|p|r1 IH1 r2 IH2|r1 IH1 r2 IH2|g r IH|r IH|r IH];
    intros st st'.
  - intros [<-|[]]. exists []. reflexivity.
  - cbn [m]. destruct (snd st) as [|c s] eqn:E; [intros []|].
    destruct (p c); [|intros []]. intros [<-|[]]. exists [c]. reflexivity.
  - cbn [m]. intros H. apply in_flat_map in H. destruct H as (st1 & H1 & H2).
    destruct (IH1 _ _ H1) as (p & Ep), (IH2 _ _ H2) as (q & Eq).
    exists (p ++ q). rewrite Ep, Eq, app_assoc. reflexivity.
  - cbn [m]. rewrite in_app_iff. intros [H|H]; eauto.
  - apply iterate_suffix. exact IH.
  - intros H. apply lookahead_keeps in H. destruct H as [-> _].
    exists []. reflexivity.
  - cbn [m]. rewrite in_map_iff. intros (st1 & <- & H1). cbn [snd].
    exact (IH _ _ H1).
Qed.

Lemma remainders_suffix (r : regex) (s t : str) :
  In t (remainders r s) -> exists p, s = p ++ t.
Proof.
  unfold remainders. rewrite in_map_iff. intros ([c t'] & <- & H).
  exact (m_suffix _ _ _ H).
Qed.

(** Group 1 of the author pattern starts with a capital letter and a small
    letter. *)
Lemma author_group_head (block : str) (g : option str) :
  search author_re block = Some g ->
  exists c1 c2 rest,
    g = Some (c1 :: c2 :: rest)
    /\ between 65 90 c1 = true /\ between 97 122 c2 = true.
Proof.
  intros H. destruct (search_some _ _ _ H) as (sk & s & st & l & _ & Hm & ->).
  assert (Hin : In st (m author_re (None, s))) by (rewrite Hm; left; auto).
  unfold author_re in Hin.
  change (m (Grp ?r) (None, s))
    with (map (fun st' : state =>
                 (Some (firstn (length s - length (snd st')) s), snd st'))
              (m r (None, s))) in Hin.
  apply in_map_iff in Hin. destruct Hin as (st1 & <- & H1). cbn [fst].
  change (In st1 (flat_map
            (m (Seq superscripts_re
                  (Star true
                     (Seq (Lit ","%char)
                        (Seq (Star true ws) (Seq name_re superscripts_re))))))
            (flat_map (m (Star true (Seq (Plus ws) cap_word)))
               (m cap_word (None, s))))) in H1.
  apply in_flat_map in H1. destruct H1 as (st2 & H2 & H1).
  apply in_flat_map in H2. destruct H2 as (st3 & H3 & H2).
  destruct (m_suffix _ _ _ H1) as (p1 & E1), (m_suffix _ _ _ H2) as (p2 & E2).
  assert (G : group_free cap_word = true) by reflexivity.
  rewrite (m_remainders cap_word None s G) in H3.
  apply in_map_iff in H3. destruct H3 as (t & <- & H3). cbn [snd] in *.
  unfold cap_word in H3. apply in_remainders_Seq in H3; [|reflexivity..].
  destruct H3 as (u & Hu & H3).
  apply in_remainders_Chr in Hu. destruct Hu as (c1 & -> & Hc1).
  apply in_remainders_plus in H3. destruct H3 as (c2 & w & -> & Hw).
  cbn [forallb] in Hw. apply andb_true_iff in Hw. destruct Hw as [Hc2 _].
  subst t. rewrite E1.
  exists c1, c2, (w ++ p2 ++ p1). split; [|split; assumption].
  f_equal.
  replace (c1 :: (c2 :: w) ++ p2 ++ p1 ++ snd st1)
    with ((c1 :: c2 :: w ++ p2 ++ p1) ++ snd st1)
    by (cbn [app]; rewrite <- !app_assoc; reflexivity).
  rewrite length_app, Nat.add_sub, firstn_app, firstn_all, Nat.sub_diag.
  cbn [firstn]. apply app_nil_r.
Qed.

Lemma letter_not_space (lo hi : nat) (c : ascii) :
  33 <= lo -> hi < 133 -> between lo hi c = true -> isspace c = false.
Proof.
  intros Hlo Hhi H. unfold between in H. apply andb_true_iff in H.
  destruct H as [H1 H2]. apply Nat.leb_le in H1, H2.
  unfold isspace, between.
  repeat match goal with
         | |- context [?a <=? ?b] => destruct (Nat.leb_spec a b)
         | |- context [?a =? ?b] => destruct (Nat.eqb_spec a b)
         end; try reflexivity; lia.
Qed.

Lemma strip_two_letters (c1 c2 : ascii) (rest : str) :
  isspace c1 = false -> isspace c2 = false ->
  exists r, strip (c1 :: c2 :: rest) = c1 :: c2 :: r.
Proof.
  intros H1 H2. unfold strip. cbn [lstrip]. rewrite H1.
  rewrite (rstrip_cons c1), (rstrip_cons c2).
  destruct (rstrip rest) as [|x r]; rewrite ?H2; eauto.
Qed.

(** X1. The title is never empty, has no white space around it and holds
    no newline. *)
Theorem title_well_formed (text : str) :
  exists title authors abstract full_text,
    extract_metadata text = Ok (title, authors, abstract, full_text)
    /\ title <> []
    /\ strip title = title
    /\ ~ In NL title.
Proof.
  exists (title_value text), (authors_value (block_value text)),
         (abstract_value text), (render text).
  split; [apply extract_metadata_ok|].
  split; [|split; [apply title_trimmed|]];
    unfold title_value, title_of_lines;
    destruct (find qualifies (split_nl text)) as [line|] eqn:F;
    try discriminate.
  - apply find_some in F. destruct F as [_ Q]. unfold qualifies in Q.
    destruct (strip line); [discriminate Q | discriminate].
  - apply find_some in F. destruct F as [Hin _]. intros H.
    apply strip_chars in H.
    pose proof (split_nl_lines text) as L. rewrite Forall_forall in L.
    exact (L line Hin H).
  - intros H. simpl in H. repeat destruct H as [H|H]; try discriminate H.
    exact H.
Qed.

(** X2. The authors are never empty: they start with a capital letter A-Z
    followed by a small letter a-z (the placeholder does too), have no white
    space around them and hold no newline. *)
Theorem authors_well_formed (text : str) :
  exists title authors abstract full_text,
    extract_metadata text = Ok (title, authors, abstract, full_text)
    /\ (exists c1 c2 rest,
          authors = c1 :: c2 :: rest
          /\ between 65 90 c1 = true /\ between 97 122 c2 = true)
    /\ strip authors = authors
    /\ ~ In NL authors.
Proof.
  exists (title_value text), (authors_value (block_value text)),
         (abstract_value text), (render text).
  split; [apply extract_metadata_ok|].
  pose proof (block_no_newline text) as Hnl.
  unfold authors_value.
  destruct (search author_re (block_value text)) as [g|] eqn:E.
  - destruct (author_group _ _ E) as (before & a & after & -> & Hb).
    destruct (author_group_head _ _ E) as (c1 & c2 & rest & Ha & H1 & H2).
    inversion Ha; subst a. clear Ha.
    assert (Hin : forall x, In x (c1 :: c2 :: rest) -> In x (block_value text)).
    { intros x Hx. rewrite Hb. apply in_or_app. right. apply in_or_app.
      left. exact Hx. }
    rewrite replace_absent
      by (apply contains_char; intros Hx; exact (Hnl (Hin _ Hx))).
    split; [|split; [apply strip_idem|]].
    + destruct (strip_two_letters c1 c2 rest) as (r & ->).
      * exact (letter_not_space 65 90 c1 ltac:(lia) ltac:(lia) H1).
      * exact (letter_not_space 97 122 c2 ltac:(lia) ltac:(lia) H2).
      * exists c1, c2, r. auto.
    + intros Hx. apply strip_chars in Hx. exact (Hnl (Hin _ Hx)).
  - split; [|split; [reflexivity|]].
    + exists "U"%char, "n"%char, (lit "known Authors"). repeat split.
    + intros H. simpl in H. repeat destruct H as [H|H]; try discriminate H.
      exact H.
Qed.

(** X3. The abstract and the full text of the result hold no newline and
    no two adjacent spaces. *)
Theorem rendered_fields_clean (text : str) :
  exists title authors abstract full_text,
    extract_metadata text = Ok (title, authors, abstract, full_text)
    /\ ~ In NL abstract /\ contains (lit "  ") abstract = false
    /\ ~ In NL full_text /\ contains (lit "  ") full_text = false.
Proof.
  exists (title_value text), (authors_value (block_value text)),
         (abstract_value text), (render text).
  split; [apply extract_metadata_ok|]. unfold abstract_value.
  repeat split; try apply render_no_newline;
    rewrite render_unfold; apply replace_spaces_clean.
Qed.

(** X4. The bounds of the author block are in order and in range, and the
    block starts at line 0 or just after a line that is the title as it
    stands. *)
Theorem author_block_bounds (text : str) :
  exists title s e,
    find_title (split_nl text) = Ok title
    /\ start_index (split_nl text) title = Ok s
    /\ end_index (split_nl text) s = Ok e
    /\ s <= e <= length (split_nl text)
    /\ (s = 0 \/ nth_error (split_nl text) (s - 1) = Some title).
Proof.
  set (lines := split_nl text).
  exists (title_of_lines lines), (start_of lines (title_of_lines lines)),
         (end_of lines (start_of lines (title_of_lines lines))).
  destruct (start_index_ok lines _ (title_trimmed lines)) as [Hs Hle].
  split; [apply find_title_ok|].
  split; [exact Hs|].
  split; [apply end_index_ok, Hle|].
  split.
  - unfold end_of, range.
    destruct (find _ _) as [i|] eqn:F; [|lia].
    apply find_first_seq in F. lia.
  - unfold start_of in *.
    destruct (position (title_of_lines lines) lines) as [i|] eqn:P;
      [right | left; reflexivity].
    replace (i + 1 - 1) with i by lia. apply position_nth, P.
Qed.

(** ** Where a captured abstract lies *)

Lemma first_cut_sound (s body : str) :
  first_cut s = Some body ->
  exists rest,
    s = body ++ rest /\ boundary_here rest = true
    /\ forall a b, body = a ++ b -> b <> [] ->
                   boundary_here (b ++ rest) = false.
Proof.
  revert body; induction s as [|c s IH]; intros body; cbn [first_cut].
  - destruct (boundary_here []) eqn:B; [|discriminate].
    intros H; inversion H; subst. exists []. split; [reflexivity|].
    split; [exact B|]. intros [|x a] b E Hb; [|discriminate E].
    cbn [app] in E. congruence.
  - destruct (boundary_here (c :: s)) eqn:B.
    + intros H; inversion H; subst. exists (c :: s). split; [reflexivity|].
      split; [exact B|]. intros [|x a] b E Hb; [|discriminate E].
      cbn [app] in E. congruence.
    + destruct (first_cut s) as [body'|]; [|discriminate].
      intros H; inversion H; subst.
      destruct (IH body' eq_refl) as (rest & -> & Hr & Hfirst).
      exists rest. split; [reflexivity|]. split; [exact Hr|].
      intros [|x a] b E Hb.
      * cbn [app] in E. subst b. exact B.
      * inversion E; subst. apply (Hfirst a b eq_refl Hb).
Qed.

Lemma first_some_sound {A B : Type} (f : A -> option B) (l : list A) (y : B) :
  first_some f l = Some y -> exists x, In x l /\ f x = Some y.
Proof.
  induction l as [|x l IH]; cbn [first_some]; [discriminate|].
  destruct (f x) as [z|] eqn:E.
  - intros H; inversion H; subst. exists x. split; [left; reflexivity | exact E].
  - intros H. destruct (IH H) as (x' & Hin & Hx).
    exists x'. split; [right; exact Hin | exact Hx].
Qed.

Lemma first_cut_none_inv (s : str) :
  first_cut s = None -> forall a b, s = a ++ b -> boundary_here b = false.
Proof.
  induction s as [|c s IH]; cbn [first_cut].
  - destruct (boundary_here []) eqn:B; [discriminate|].
    intros _ a b E. symmetry in E. apply app_eq_nil in E.
    destruct E as [_ ->]. exact B.
  - destruct (boundary_here (c :: s)) eqn:B; [discriminate|].
    destruct (first_cut s); [discriminate|].
    intros _ [|x a] b E.
    + cbn [app] in E. subst b. exact B.
    + inversion E; subst. apply (IH eq_refl a b eq_refl).
Qed.

Lemma first_some_none_inv {A B : Type} (f : A -> option B) (l : list A) :
  first_some f l = None -> forall x, In x l -> f x = None.
Proof.
  induction l as [|x l IH]; cbn [first_some]; [intros _ y []|].
  destruct (f x) eqn:E; [discriminate|].
  intros H y [<-|Hy]; [exact E | exact (IH H y Hy)].
Qed.

(** Without a capture after the marker there is no boundary after it. *)
Lemma capture_after_none_inv (s : str) :
  capture_after s = None -> forall a b, s = a ++ b -> boundary_here b = false.
Proof.
  intros H. apply first_cut_none_inv.
  apply (first_some_none_inv _ _ H).
  apply in_greedy_run. exists []. auto.
Qed.

Lemma startswith_ci_split (w s : str) :
  startswith_ci w s = true ->
  exists mk t, s = mk ++ t /\ map lower mk = w /\ skipn (length w) s = t.
Proof.
  unfold startswith_ci. revert s; induction w as [|x w IH]; intros s.
  - intros _. exists [], s. auto.
  - destruct s as [|y s]; cbn [map startswith]; [discriminate|].
    intros H. apply andb_true_iff in H. destruct H as [Hx Hs].
    apply Ascii.eqb_eq in Hx.
    destruct (IH s Hs) as (mk & t & -> & Hmk & Ht).
    exists (y :: mk), t. cbn [map length skipn]. rewrite Hmk, <- Hx. auto.
Qed.

Lemma capture_at_sound (s body : str) :
  capture_at s = Some body ->
  exists mk gap rest,
    s = mk ++ gap ++ body ++ rest
    /\ map lower mk = lit "abstract"
    /\ forallb isspace gap = true
    /\ boundary_here rest = true
    /\ forall a b, body = a ++ b -> b <> [] ->
                   boundary_here (b ++ rest) = false.
Proof.
  unfold capture_at.
  destruct (startswith_ci (lit "abstract") s) eqn:Hs; [|discriminate].
  destruct (startswith_ci_split _ _ Hs) as (mk & t & -> & Hmk & ->).
  unfold capture_after. intros H.
  apply first_some_sound in H. destruct H as (u & Hu & Hcut).
  apply in_greedy_run in Hu. destruct Hu as (gap & -> & Hgap).
  apply first_cut_sound in Hcut. destruct Hcut as (rest & -> & Hr & Hfirst).
  exists mk, gap, rest. auto.
Qed.

Lemma abstract_capture_sound (text body : str) :
  abstract_capture text = Some body ->
  exists pre s,
    text = pre ++ s /\ capture_at s = Some body
    /\ forall a b, text = a ++ b -> length a < length pre ->
                   capture_at b = None.
Proof.
  induction text as [|c t IH]; cbn [abstract_capture].
  - destruct (capture_at []) eqn:E; [|discriminate].
    intros H; inversion H; subst. exists [], []. split; [reflexivity|].
    split; [exact E|]. intros a b _ Hl. simpl in Hl. lia.
  - destruct (capture_at (c :: t)) eqn:E.
    + intros H; inversion H; subst. exists [], (c :: t).
      split; [reflexivity|]. split; [exact E|].
      intros a b _ Hl. simpl in Hl. lia.
    + intros H. destruct (IH H) as (pre & s & -> & Hs & Hbefore).
      exists (c :: pre), s. split; [reflexivity|]. split; [exact Hs|].
      intros [|x a] b Eab Hl.
      * cbn [app] in Eab. subst b. exact E.
      * inversion Eab; subst. apply (Hbefore a b); [assumption|].
        simpl in Hl. lia.
Qed.

Lemma app_split_shorter (pre s a b : str) :
  pre ++ s = a ++ b -> length a < length pre ->
  exists e, pre = a ++ e /\ e <> [] /\ b = e ++ s.
Proof.
  revert pre; induction a as [|x a IH]; intros pre E Hl.
  - exists pre. cbn [app] in *. split; [reflexivity|].
    split; [destruct pre; [simpl in Hl; lia | discriminate] | auto].
  - destruct pre as [|y pre]; [simpl in Hl; lia|].
    cbn [app] in E. inversion E; subst.
    destruct (IH pre H1) as (e & -> & He & ->); [simpl in Hl; lia|].
    exists e. auto.
Qed.

(** X5. An abstract other than the placeholder comes from the text: it is
    the trimmed and encoded text between the first occurrence of the marker
    with white space after it and a section boundary, with no boundary
    starting inside it. *)
Theorem abstract_from_text (text : str) :
  returns_abstract text (lit "Abstract not found")
  \/ exists pre mk gap body rest,
       text = pre ++ mk ++ gap ++ body ++ rest
       /\ map lower mk = lit "abstract"
       /\ first_marker text pre
       /\ forallb isspace gap = true
       /\ boundary_at rest
       /\ (forall a b, body = a ++ b -> b <> [] -> ~ boundary_at (b ++ rest))
       /\ returns_abstract text (render (strip body)).
Proof.
  pose proof (returns_abstract_capture text) as R.
  destruct (abstract_capture text) as [body|] eqn:E; [right | left; exact R].
  destruct (abstract_capture_sound _ _ E) as (pre & s & -> & Hs & Hbefore).
  destruct (capture_at_sound _ _ Hs)
    as (mk & gap & rest & -> & Hmk & Hgap & Hr & Hfirst).
  exists pre, mk, gap, body, rest.
  split; [reflexivity|]. split; [exact Hmk|].
  split; [|split; [exact Hgap|split; [apply boundary_here_iff, Hr|split]]].
  - intros a b Eab Hl.
    destruct (startswith_ci (lit "abstract") b) eqn:Hb; [|reflexivity].
    exfalso. pose proof (Hbefore a b Eab Hl) as Hnone.
    unfold capture_at in Hnone. rewrite Hb in Hnone.
    destruct (app_split_shorter _ _ _ _ Eab Hl) as (e & -> & He & ->).
    assert (Hlen : length (lit "abstract") <= length (e ++ mk ++ gap ++ body))
      by (rewrite !length_app, <- Hmk, length_map; lia).
    pose proof (capture_after_none_inv _ Hnone
                  (skipn (length (lit "abstract")) (e ++ mk ++ gap ++ body))
                  rest) as Hb'.
    rewrite Hb' in Hr; [discriminate Hr|].
    replace (e ++ mk ++ gap ++ body ++ rest)
      with ((e ++ mk ++ gap ++ body) ++ rest)
      by (rewrite <- !app_assoc; reflexivity).
    rewrite skipn_app.
    replace (length (lit "abstract") - length (e ++ mk ++ gap ++ body))
      with 0 by lia.
    reflexivity.
  - intros a b Eab Hb Hat. apply boundary_here_iff in Hat.
    rewrite (Hfirst a b Eab Hb) in Hat. discriminate Hat.
  - exact R.
Qed.

(** ** Marker words inside a line *)

Lemma startswith_iff (sub s : str) :
  startswith sub s = true <-> exists b, s = sub ++ b.
Proof.
  revert s; induction sub as [|x sub IH]; intros s; cbn [startswith].
  - split; [intros _; exists s; reflexivity | reflexivity].
  - destruct s as [|y s].
    + split; [discriminate | intros (b & E); discriminate E].
    + rewrite andb_true_iff, Ascii.eqb_eq, IH. split.
      * intros (-> & b & ->). exists b. reflexivity.
      * intros (b & E). inversion E; subst. eauto.
Qed.

Lemma contains_iff (sub s : str) :
  contains sub s = true <-> exists a b, s = a ++ sub ++ b.
Proof.
  induction s as [|c s IH]; cbn [contains].
  - rewrite orb_false_r, startswith_iff. split.
    + intros (b & E). exists [], b. exact E.
    + intros ([|x a] & b & E); [exists b; exact E | discriminate E].
  - rewrite orb_true_iff, startswith_iff, IH. split.
    + intros [(b & E)|(a & b & ->)].
      * exists [], b. exact E.
      * exists (c :: a), b. reflexivity.
    + intros ([|x a] & b & E).
      * left. exists b. exact E.
      * right. inversion E; subst. eauto.
Qed.

(** X6. The marker test of the author-block loop, the search of the
    pattern of the four words in a line, succeeds exactly when one of the
    words abstract, date, correspondence, affiliation occurs in the line in
    any letter case, at any place: inside a longer word too. *)
Theorem marker_anywhere (line : str) :
  has_marker line = true <->
  exists pre w post,
    line = pre ++ w ++ post /\ In (map lower w) marker_words.
Proof.
  rewrite has_marker_spec. unfold contains_marker. rewrite existsb_exists.
  split.
  - intros (word & Hin & H). apply contains_iff in H.
    destruct H as (a & b & E).
    apply map_eq_app in E. destruct E as (pre & t & -> & <- & E).
    apply map_eq_app in E. destruct E as (w & post & -> & <- & <-).
    exists pre, w, post. auto.
  - intros (pre & w & post & -> & Hin).
    exists (map lower w). split; [exact Hin|].
    apply contains_iff. exists (map lower pre), (map lower post).
    rewrite !map_app. reflexivity.
Qed.

(** ** Decoding the stored text *)

Lemma replace_from_skip (old new : str) (k : nat) (s : str) :
  replace_from old new k s = replace_from old new 0 (skipn k s).
Proof.
  revert k; induction s as [|c s IH]; intros [|k]; try reflexivity.
  cbn [replace_from skipn]. apply IH.
Qed.

Lemma replace_here (old new s : str) :
  old <> [] -> replace old new (old ++ s) = new ++ replace old new s.
Proof.
  intros Hne. destruct old as [|x old]; [contradiction|].
  unfold replace. cbn [app replace_from].
  change (startswith (x :: old) (x :: old ++ s))
    with (startswith (x :: old) ((x :: old) ++ s)).
  rewrite startswith_app. f_equal.
  rewrite replace_from_skip.
  replace (length (x :: old) - 1) with (length old) by (cbn [length]; lia).
  rewrite skipn_app, skipn_all, Nat.sub_diag. reflexivity.
Qed.

Lemma replace_other (old new : str) (c : ascii) (s : str) :
  startswith old (c :: s) = false ->
  replace old new (c :: s) = c :: replace old new s.
Proof. intros H. unfold replace. cbn [replace_from]. rewrite H. reflexivity. Qed.

(** Characters other than the first one of [old] are passed over. *)
Lemma replace_pass (o : ascii) (old new pre s : str) :
  ~ In o pre ->
  replace (o :: old) new (pre ++ s) = pre ++ replace (o :: old) new s.
Proof.
  induction pre as [|c pre IH]; intros H; [reflexivity|].
  cbn [app]. rewrite replace_other.
  - rewrite IH; [reflexivity|]. intros Hin. apply H. right. exact Hin.
  - cbn [startswith]. destruct (Ascii.eqb o c) eqn:E; [|reflexivity].
    apply Ascii.eqb_eq in E. subst c. exfalso. apply H. left. reflexivity.
Qed.

Lemma decode_spaces (t : str) :
  ~ In "&"%char t ->
  replace (lit "&nbsp;&nbsp;") (lit "  ") (replace_spaces t) = t.
Proof.
  revert t. apply (replace_spaces_ind
    (fun t => ~ In "&"%char t ->
              replace (lit "&nbsp;&nbsp;") (lit "  ") (replace_spaces t) = t)).
  - reflexivity.
  - intros t IH H. rewrite replace_spaces_pair.
    rewrite replace_here by discriminate.
    rewrite IH; [reflexivity|]. intros Hin. apply H. right. right. exact Hin.
  - intros c t Hs IH H. rewrite (replace_spaces_other _ _ Hs).
    change (c :: replace_spaces t) with ([c] ++ replace_spaces t).
    unfold lit at 1. cbn [String.list_ascii_of_string].
    rewrite replace_pass.
    + cbn [app]. f_equal. apply IH. intros Hin. apply H. right. exact Hin.
    + intros [->|[]]. apply H. left. reflexivity.
Qed.

Lemma decode_breaks (t : str) :
  ~ In "<"%char t ->
  replace (lit "<br>") [NL] (replace_spaces (replace_nl t)) = replace_spaces t.
Proof.
  revert t. apply (replace_spaces_ind
    (fun t => ~ In "<"%char t ->
              replace (lit "<br>") [NL] (replace_spaces (replace_nl t)) =
              replace_spaces t)).
  - reflexivity.
  - intros t IH H.
    rewrite !replace_nl_cons.
    change (Ascii.eqb NL space) with false. cbn iota.
    rewrite !replace_spaces_pair.
    unfold lit at 1 2. cbn [String.list_ascii_of_string].
    rewrite (replace_pass "<"%char _ _ (lit "&nbsp;&nbsp;")).
    + f_equal. apply IH. intros Hin. apply H. right. right. exact Hin.
    + intros Hin. simpl in Hin.
      repeat destruct Hin as [Hin|Hin]; try discriminate Hin. exact Hin.
  - intros c t Hs IH H.
    assert (Ht : ~ In "<"%char t) by (intros Hin; apply H; right; exact Hin).
    rewrite replace_nl_cons, (replace_spaces_other _ _ Hs).
    destruct (Ascii.eqb NL c) eqn:E.
    + apply Ascii.eqb_eq in E. subst c.
      change (lit "<br>" ++ replace_nl t)
        with ("<"%char :: "b"%char :: "r"%char :: ">"%char :: replace_nl t).
      rewrite 4 replace_spaces_other by reflexivity.
      change ("<"%char :: "b"%char :: "r"%char :: ">"%char
              :: replace_spaces (replace_nl t))
        with (lit "<br>" ++ replace_spaces (replace_nl t)).
      rewrite replace_here by discriminate.
      rewrite (IH Ht). reflexivity.
    + assert (Hs' : startswith (lit "  ") (c :: replace_nl t) = false).
      { destruct (starts_space _ _ Hs) as [Hc|Hc].
        - unfold lit. cbn [String.list_ascii_of_string startswith].
          destruct (Ascii.eqb " " c) eqn:Ec; [|reflexivity].
          apply Ascii.eqb_eq in Ec. subst c. exfalso. apply Hc. reflexivity.
        - pose proof (replace_nl_head t Hc) as Hh.
          destruct (replace_nl t) as [|d u].
          + unfold lit. cbn [String.list_ascii_of_string startswith].
            apply andb_false_r.
          + unfold lit. cbn [String.list_ascii_of_string startswith].
            destruct (Ascii.eqb " " d) eqn:Ed.
            * apply Ascii.eqb_eq in Ed. subst d. exfalso.
              apply (Hh u). reflexivity.
            * rewrite andb_false_r. reflexivity. }
      rewrite (replace_spaces_other _ _ Hs').
      change (c :: replace_spaces (replace_nl t))
        with ([c] ++ replace_spaces (replace_nl t)).
      unfold lit at 1. cbn [String.list_ascii_of_string].
      rewrite replace_pass.
      * cbn [app]. f_equal. exact (IH Ht).
      * intros [->|[]]. apply H. left. reflexivity.
Qed.

Lemma decode_of_render (text : str) :
  ~ In "<"%char text ->
  ~ In "&"%char text ->
  Routes.decode_full_text (render text) = text.
Proof.
  intros Hlt Hamp. unfold Routes.decode_full_text.
  rewrite render_unfold, (decode_breaks text Hlt).
  apply decode_spaces, Hamp.
Qed.

(** X7. Decoding the stored full text, as [summarize_paper] does, gives the
    text of the PDF back when that text holds no character < and no
    character &. *)
Theorem decode_render (text : str) :
  ~ In "<"%char text ->
  ~ In "&"%char text ->
  forall title authors abstract full_text,
    extract_metadata text = Ok (title, authors, abstract, full_text) ->
    Routes.decode_full_text full_text = text.
Proof.
  intros Hlt Hamp title authors abstract full_text.
  rewrite extract_metadata_ok. intros H; inversion H; subst.
  apply decode_of_render; assumption.
Qed.

(** ** The pages *)

Lemma occurs_cut_first (sep s : str) :
  Routes.occurs sep s =
  match Routes.cut_first sep s with Some _ => true | None => false end.
Proof.
  induction s as [|c s IH]; cbn [Routes.occurs Routes.cut_first].
  - destruct (startswith sep []); reflexivity.
  - destruct (startswith sep (c :: s)); [reflexivity|].
    cbn [orb]. rewrite IH.
    destruct (Routes.cut_first sep s) as [[a b]|]; reflexivity.
Qed.

(** What [summarize_paper] does, case by case. *)
Lemma summarize_run (llm : Routes.service) (paper_id : nat) (w : Routes.world) :
  Routes.summarize_paper llm paper_id w =
  match Routes.get paper_id (Routes.rows w) with
  | None => (Routes.NotFound, w)
  | Some p =>
      if Routes.truthy (Models.summary p)
      then (Routes.Done (summary_json p), w)
      else
        match Models.full_text p with
        | None => (Routes.Raised AttributeError, w)
        | Some ft =>
            let r1 := summary_request (Routes.decode_full_text ft) in
            match llm (Routes.sent w) r1 with
            | None =>
                (Routes.ServiceError,
                 {| Routes.rows := Routes.rows w;
                    Routes.sent := Routes.sent w ++ [r1] |})
            | Some a1 =>
                let r2 := findings_request (encoded a1) in
                match llm (Routes.sent w ++ [r1]) r2 with
                | None =>
                    (Routes.ServiceError,
                     {| Routes.rows := Routes.rows w;
                        Routes.sent := (Routes.sent w ++ [r1]) ++ [r2] |})
                | Some a2 =>
                    let p' := Routes.set_summary p (encoded a1) (encoded a2) in
                    (Routes.Done (summary_json p'),
                     {| Routes.rows := updated p' (Routes.rows w);
                        Routes.sent := (Routes.sent w ++ [r1]) ++ [r2] |})
                end
            end
        end
  end.
Proof.
  unfold Routes.summarize_paper, Routes.and_then, Routes.get_or_404.
  destruct (Routes.get paper_id (Routes.rows w)) as [p|]; [|reflexivity].
  destruct (Routes.truthy (Models.summary p)); [reflexivity|].
  cbn [negb]. destruct (Models.full_text p) as [ft|]; [|reflexivity].
  cbn [Routes.method_of Routes.ret].
  unfold Routes.generate_summary, Routes.extract_key_findings,
    Routes.and_then, Routes.create.
  cbn [Routes.sent Routes.rows].
  fold (summary_request (Routes.decode_full_text ft)).
  destruct (llm (Routes.sent w) (summary_request (Routes.decode_full_text ft)))
    as [a1|]; [|reflexivity].
  cbn [Routes.ret Routes.sent Routes.rows].
  fold (encoded a1). fold (findings_request (encoded a1)).
  destruct (llm _ (findings_request (encoded a1))) as [a2|]; reflexivity.
Qed.

(** What [gaps_paper] does, case by case. *)
Lemma gaps_run (llm : Routes.service) (paper_id : nat) (w : Routes.world) :
  Routes.gaps_paper llm paper_id w =
  match Routes.get paper_id (Routes.rows w) with
  | None => (Routes.NotFound, w)
  | Some p =>
      if Routes.truthy (Models.gaps p)
      then (Routes.Done (gaps_json p), w)
      else
        match Models.summary p with
        | None => (Routes.Raised AttributeError, w)
        | Some s =>
            match gaps_argument s (Models.abstract p) with
            | None => (Routes.Raised AttributeError, w)
            | Some arg =>
                let r := gaps_request arg in
                match llm (Routes.sent w) r with
                | None =>
                    (Routes.ServiceError,
                     {| Routes.rows := Routes.rows w;
                        Routes.sent := Routes.sent w ++ [r] |})
                | Some a =>
                    let p' := with_gaps p (encoded a) in
                    (Routes.Done (gaps_json p'),
                     {| Routes.rows := updated p' (Routes.rows w);
                        Routes.sent := Routes.sent w ++ [r] |})
                end
            end
        end
  end.
Proof.
  unfold Routes.gaps_paper, Routes.and_then, Routes.get_or_404.
  destruct (Routes.get paper_id (Routes.rows w)) as [p|]; [|reflexivity].
  destruct (Routes.truthy (Models.gaps p)); [reflexivity|].
  cbn [negb]. destruct (Models.summary p) as [s|]; [|reflexivity].
  cbn [Routes.method_of Routes.ret]. unfold gaps_argument.
  destruct (replace (lit "<br>") [NL] s) as [|c s'];
    [destruct (Models.abstract p) as [ab|]; [|reflexivity]|];
    cbn [Routes.method_of Routes.ret option_map];
    unfold Routes.analyze_gaps, Routes.and_then, Routes.create, gaps_request;
    cbv zeta;
    (match goal with
     | |- context [llm ?h ?r] => destruct (llm h r) as [a|]
     end; [|reflexivity]);
    cbn [Routes.ret]; rewrite occurs_cut_first;
    unfold with_gaps, Routes.split_once, encoded;
    destruct (Routes.cut_first (lit "Future Work:")
                (replace [NL] (lit "<br>") a)) as [[before after]|];
    reflexivity.
Qed.

Lemma get_id (paper_id : nat) (table : list Models.Paper) (p : Models.Paper) :
  Routes.get paper_id table = Some p -> Models.id p = paper_id /\ In p table.
Proof.
  unfold Routes.get. intros H. apply find_some in H.
  destruct H as [Hin H]. apply Nat.eqb_eq in H. auto.
Qed.

Lemma get_updated (paper_id : nat) (table : list Models.Paper)
    (p p' : Models.Paper) :
  Routes.get paper_id table = Some p ->
  Models.id p' = paper_id ->
  Routes.get paper_id (updated p' table) = Some p'.
Proof.
  unfold Routes.get, updated. intros H <-.
  induction table as [|q table IH]; [discriminate H|].
  cbn [find map] in *.
  destruct (Models.id q =? Models.id p') eqn:E.
  - rewrite Nat.eqb_refl. reflexivity.
  - rewrite E. apply IH, H.
Qed.

Lemma get_updated_other (paper_id : nat) (table : list Models.Paper)
    (p' : Models.Paper) :
  paper_id <> Models.id p' ->
  Routes.get paper_id (updated p' table) = Routes.get paper_id table.
Proof.
  unfold Routes.get, updated. intros Hne.
  induction table as [|q table IH]; [reflexivity|].
  cbn [find map]. destruct (Models.id q =? Models.id p') eqn:E.
  - apply Nat.eqb_eq in E.
    replace (Models.id p' =? paper_id) with false
      by (symmetry; apply Nat.eqb_neq; congruence).
    replace (Models.id q =? paper_id) with false
      by (symmetry; apply Nat.eqb_neq; congruence).
    exact IH.
  - destruct (Models.id q =? paper_id); [reflexivity | exact IH].
Qed.

Lemma updated_ids (p' : Models.Paper) (table : list Models.Paper) :
  map Models.id (updated p' table) = map Models.id table.
Proof.
  unfold updated. rewrite map_map. apply map_ext. intros q.
  destruct (Models.id q =? Models.id p') eqn:E; [|reflexivity].
  apply Nat.eqb_eq in E. congruence.
Qed.

Lemma contains_first_absent (c : ascii) (w s : str) :
  ~ In c s -> contains (c :: w) s = false.
Proof.
  induction s as [|x s IH]; intros H; [reflexivity|].
  cbn [contains startswith]. rewrite IH by (intros H'; apply H; right; auto).
  destruct (Ascii.eqb c x) eqn:E; [|reflexivity].
  apply Ascii.eqb_eq in E. subst. exfalso. apply H. left. reflexivity.
Qed.

Lemma absent_spec (c : ascii) (s : str) : absent c s = true -> ~ In c s.
Proof.
  unfold absent. intros H Hin. apply negb_true_iff in H.
  assert (E : existsb (Ascii.eqb c) s = true).
  { apply existsb_exists. exists c. split; [exact Hin | apply Ascii.eqb_refl]. }
  congruence.
Qed.

Lemma new_paper_fields (paper_id : nat) (text filepath : str)
    (p : Models.Paper) :
  Routes.new_paper paper_id text filepath = Ok p ->
  Models.id p = paper_id
  /\ Models.full_text p = Some (render text)
  /\ Models.summary p = None
  /\ Models.gaps p = None
  /\ exists abstract, Models.abstract p = Some abstract.
Proof.
  unfold Routes.new_paper. rewrite extract_metadata_ok. cbn [bind].
  intros H; inversion H; subst. cbn. eauto 6.
Qed.

Lemma decode_render_witness :
  Routes.decode_full_text (render paper_example) = paper_example.
Proof.
  apply (decode_render paper_example) with
    (title := lit "My Great Paper") (authors := lit "Jane Doe1, John Smith2")
    (abstract := lit "We study X.");
    [apply absent_spec; vm_compute; reflexivity
    |apply absent_spec; vm_compute; reflexivity
    |vm_compute; reflexivity].
Defined.

(** X8. For a paper that [upload] stored from a text without < and &, the
    first thing [summarize_paper] sends is the summary prompt around the
    first 3000 characters of that text. *)
Theorem summary_prompt_of_upload (llm : Routes.service) (w : Routes.world)
    (paper_id : nat) (text filepath : str) (p : Models.Paper) :
  Routes.new_paper paper_id text filepath = Ok p ->
  Routes.get paper_id (Routes.rows w) = Some p ->
  ~ In "<"%char text ->
  ~ In "&"%char text ->
  exists more,
    Routes.sent (snd (Routes.summarize_paper llm paper_id w)) =
    Routes.sent w
    ++ {| Routes.model := lit "gpt-4o-mini";
          Routes.content :=
            Routes.summary_prompt_head ++ firstn 3000 text
            ++ Routes.prompt_tail;
          Routes.temperature := Some 3 |} :: more.
Proof.
  intros Hnew Hget Hlt Hamp.
  destruct (new_paper_fields _ _ _ _ Hnew) as (_ & Hft & Hs & _).
  rewrite summarize_run, Hget, Hs, Hft. cbn [Routes.truthy].
  rewrite (decode_of_render text Hlt Hamp). cbv zeta.
  assert (E : summary_request text =
              {| Routes.model := lit "gpt-4o-mini";
                 Routes.content :=
                   Routes.summary_prompt_head ++ firstn 3000 text
                   ++ Routes.prompt_tail;
                 Routes.temperature := Some 3 |}).
  { unfold summary_request, Routes.prompt_text.
    rewrite (replace_absent (lit "<br>"))
      by (apply (contains_first_absent "<"%char), Hlt).
    rewrite (replace_absent (lit "&nbsp;&nbsp;"))
      by (apply (contains_first_absent "&"%char), Hamp).
    reflexivity. }
  rewrite E.
  destruct (llm (Routes.sent w) _) as [a1|]; [|exists []; reflexivity].
  destruct (llm _ (findings_request (encoded a1))) as [a2|]; cbn [snd Routes.sent];
    rewrite <- app_assoc; eexists; reflexivity.
Qed.

Lemma summary_prompt_of_upload_witness :
  exists more,
    Routes.sent (snd (Routes.summarize_paper example_service 1 example_world)) =
    {| Routes.model := lit "gpt-4o-mini";
       Routes.content :=
         Routes.summary_prompt_head ++ firstn 3000 paper_example
         ++ Routes.prompt_tail;
       Routes.temperature := Some 3 |} :: more.
Proof.
  apply (summary_prompt_of_upload example_service example_world 1
           paper_example (lit "uploads/paper.pdf") example_row).
  - vm_compute. reflexivity.
  - reflexivity.
  - apply absent_spec. vm_compute. reflexivity.
  - apply absent_spec. vm_compute. reflexivity.
Defined.

(** X9. Once a paper has a non-empty summary, [summarize_paper] answers
    from the table: a request that follows a successful one returns the same
    body, sends nothing to the service and changes no row. *)
Theorem summarize_cached (llm : Routes.service) (paper_id : nat)
    (w w1 : Routes.world) (body : Routes.json) :
  Routes.summarize_paper llm paper_id w = (Routes.Done body, w1) ->
  (exists p s, Routes.get paper_id (Routes.rows w1) = Some p
               /\ Models.summary p = Some s /\ s <> []) ->
  Routes.summarize_paper llm paper_id w1 = (Routes.Done body, w1).
Proof.
  rewrite (summarize_run llm paper_id w).
  destruct (Routes.get paper_id (Routes.rows w)) as [p0|] eqn:G;
    [|discriminate].
  destruct (Routes.truthy (Models.summary p0)) eqn:T.
  - intros H _. inversion H; subst.
    rewrite summarize_run, G, T. reflexivity.
  - destruct (Models.full_text p0) as [ft|]; [|discriminate].
    cbv zeta. destruct (llm _ _) as [a1|]; [|discriminate].
    destruct (llm _ _) as [a2|]; [|discriminate].
    intros H (p & s & Hget & Hs & Hne). inversion H; subst. clear H.
    cbn [Routes.rows] in Hget.
    destruct (get_id _ _ _ G) as [Hid _].
    rewrite (get_updated _ _ p0 (Routes.set_summary p0 (encoded a1) (encoded a2))
               G Hid) in Hget.
    inversion Hget; subst p. clear Hget.
    rewrite summarize_run. cbn [Routes.rows].
    rewrite (get_updated _ _ p0
               (Routes.set_summary p0 (encoded a1) (encoded a2)) G Hid), Hs.
    destruct s; [contradiction | reflexivity].
Qed.

Lemma summarize_cached_witness :
  exists body w1,
    Routes.summarize_paper example_service 1 example_world =
    (Routes.Done body, w1)
    /\ Routes.summarize_paper example_service 1 w1 = (Routes.Done body, w1).
Proof.
  eexists. eexists.
  assert (H : Routes.summarize_paper example_service 1 example_world =
              (Routes.Done ?[body], ?[w1])) by (vm_compute; reflexivity).
  split; [exact H|].
  apply (summarize_cached example_service 1 example_world _ _ H).
  eexists. eexists. split; [vm_compute; reflexivity|].
  split; [reflexivity | discriminate].
Defined.

(** X10. For a paper as [upload] stored it, [gaps_paper] raises
    AttributeError at [paper.summary.replace], sends nothing and changes
    nothing.  After a successful [summarize_paper] on that paper the
    summary is there: [gaps_paper] gets to the completion call and sends
    exactly one request, made from the decoded summary, or from the decoded
    abstract when that is empty; it answers and stores the gaps when the
    service gives a text, and fails with the table unchanged when the call,
    or reading the content of its answer, raises. *)
Theorem gaps_needs_summary (llm : Routes.service) (w : Routes.world)
    (paper_id : nat) (text filepath : str) (p : Models.Paper) :
  Routes.new_paper paper_id text filepath = Ok p ->
  Routes.get paper_id (Routes.rows w) = Some p ->
  Routes.gaps_paper llm paper_id w = (Routes.Raised AttributeError, w)
  /\ forall body w1,
       Routes.summarize_paper llm paper_id w = (Routes.Done body, w1) ->
       exists p1 summary arg,
         Routes.get paper_id (Routes.rows w1) = Some p1
         /\ Models.summary p1 = Some summary
         /\ gaps_argument summary (Models.abstract p1) = Some arg
         /\ Routes.gaps_paper llm paper_id w1 =
            match llm (Routes.sent w1) (gaps_request arg) with
            | Some answer =>
                (Routes.Done (gaps_json (with_gaps p1 (encoded answer))),
                 {| Routes.rows :=
                      updated (with_gaps p1 (encoded answer)) (Routes.rows w1);
                    Routes.sent := Routes.sent w1 ++ [gaps_request arg] |})
            | None =>
                (Routes.ServiceError,
                 {| Routes.rows := Routes.rows w1;
                    Routes.sent := Routes.sent w1 ++ [gaps_request arg] |})
            end.
Proof.
  intros Hnew Hget.
  destruct (new_paper_fields _ _ _ _ Hnew) as (Hid & Hft & Hs & Hg & ab & Hab).
  split.
  - rewrite gaps_run, Hget, Hg, Hs. reflexivity.
  - intros body w1. rewrite summarize_run, Hget, Hs, Hft.
    cbn [Routes.truthy]. cbv zeta.
    destruct (llm _ _) as [a1|]; [|discriminate].
    destruct (llm _ _) as [a2|]; [|discriminate].
    intros H. injection H as <- <-.
    set (p1 := Routes.set_summary p (encoded a1) (encoded a2)).
    assert (G1 : Routes.get paper_id (updated p1 (Routes.rows w)) = Some p1)
      by exact (get_updated _ _ p p1 Hget Hid).
    assert (A : exists arg,
              gaps_argument (encoded a1) (Models.abstract p1) = Some arg).
    { unfold gaps_argument.
      destruct (replace (lit "<br>") [NL] (encoded a1)) as [|c r];
        [|eexists; reflexivity].
      cbn [p1 Routes.set_summary Models.abstract]. rewrite Hab.
      eexists; reflexivity. }
    destruct A as (arg & A).
    exists p1, (encoded a1), arg.
    split; [exact G1|]. split; [reflexivity|]. split; [exact A|].
    rewrite gaps_run. cbn [Routes.rows Routes.sent]. rewrite G1.
    replace (Models.gaps p1) with (Models.gaps p) by reflexivity.
    rewrite Hg. cbn [Routes.truthy].
    replace (Models.summary p1) with (Some (encoded a1)) by reflexivity.
    rewrite A. cbv zeta.
    destruct (llm _ (gaps_request arg)); reflexivity.
Qed.

Lemma gaps_needs_summary_witness :
  Routes.gaps_paper example_service 1 example_world =
  (Routes.Raised AttributeError, example_world)
  /\ forall body w1,
       Routes.summarize_paper example_service 1 example_world =
       (Routes.Done body, w1) ->
       exists p1 summary arg,
         Routes.get 1 (Routes.rows w1) = Some p1
         /\ Models.summary p1 = Some summary
         /\ gaps_argument summary (Models.abstract p1) = Some arg
         /\ Routes.gaps_paper example_service 1 w1 =
            match example_service (Routes.sent w1) (gaps_request arg) with
            | Some answer =>
                (Routes.Done (gaps_json (with_gaps p1 (encoded answer))),
                 {| Routes.rows :=
                      updated (with_gaps p1 (encoded answer)) (Routes.rows w1);
                    Routes.sent := Routes.sent w1 ++ [gaps_request arg] |})
            | None =>
                (Routes.ServiceError,
                 {| Routes.rows := Routes.rows w1;
                    Routes.sent := Routes.sent w1 ++ [gaps_request arg] |})
            end.
Proof.
  apply (gaps_needs_summary example_service example_world 1 paper_example
           (lit "uploads/paper.pdf") example_row).
  - vm_compute. reflexivity.
  - reflexivity.
Defined.

Lemma startswith_longer (p s t : str) :
  startswith p s = true -> startswith p (s ++ t) = true.
Proof.
  revert s; induction p as [|x p IH]; intros s; [reflexivity|].
  destruct s as [|y s]; cbn [startswith app]; [discriminate|].
  intros H. apply andb_true_iff in H. destruct H as [-> H].
  apply IH, H.
Qed.

(** The cut is at the first occurrence of the separator. *)
Lemma cut_first_spec (sep s a b : str) :
  Routes.cut_first sep s = Some (a, b) ->
  s = a ++ sep ++ b /\ (sep <> [] -> Routes.occurs sep a = false).
Proof.
  revert a; induction s as [|c s IH]; intros a; cbn [Routes.cut_first].
  - destruct (startswith sep []) eqn:E; [|discriminate].
    intros H; inversion H; subst. destruct sep; [|discriminate E].
    split; [reflexivity | intros Hne; contradiction].
  - destruct (startswith sep (c :: s)) eqn:E.
    + intros H; inversion H; subst. apply startswith_iff in E.
      destruct E as (t & E). split.
      * rewrite E, skipn_app, skipn_all, Nat.sub_diag. reflexivity.
      * intros Hne. destruct sep; [contradiction | reflexivity].
    + destruct (Routes.cut_first sep s) as [[a' b']|]; [|discriminate].
      intros H; inversion H; subst.
      destruct (IH a' eq_refl) as [-> Hocc]. split; [reflexivity|].
      intros Hne. cbn [Routes.occurs]. rewrite (Hocc Hne), orb_false_r.
      destruct (startswith sep (c :: a')) eqn:E'; [|reflexivity].
      apply (startswith_longer _ _ (sep ++ b)) in E'.
      cbn [app] in E, E'. congruence.
Qed.

(** X11. When [gaps_paper] asks the service, the stored gaps are the
    encoded answer up to its first "Future Work:" and the stored future
    work is the trimmed rest; without "Future Work:" the gaps are the whole
    encoded answer and the future work is the fixed sentence. *)
Theorem gaps_split (llm : Routes.service) (paper_id : nat)
    (w w1 : Routes.world) (p : Models.Paper) (body : Routes.json) :
  Routes.get paper_id (Routes.rows w) = Some p ->
  Routes.truthy (Models.gaps p) = false ->
  Routes.gaps_paper llm paper_id w = (Routes.Done body, w1) ->
  exists req answer p1,
    Routes.sent w1 = Routes.sent w ++ [req]
    /\ llm (Routes.sent w) req = Some answer
    /\ Routes.get paper_id (Routes.rows w1) = Some p1
    /\ body = gaps_json p1
    /\ ((exists before after,
           encoded answer = before ++ lit "Future Work:" ++ after
           /\ Routes.occurs (lit "Future Work:") before = false
           /\ Models.gaps p1 = Some before
           /\ Models.future_work p1 = Some (strip after))
        \/ (Routes.occurs (lit "Future Work:") (encoded answer) = false
            /\ Models.gaps p1 = Some (encoded answer)
            /\ Models.future_work p1 =
               Some (lit "Future directions: Explore multimodal extensions."))).
Proof.
  intros Hget Hg. rewrite gaps_run, Hget, Hg.
  destruct (Models.summary p) as [s|]; [|discriminate].
  destruct (gaps_argument s (Models.abstract p)) as [arg|]; [|discriminate].
  cbv zeta. destruct (llm (Routes.sent w) (gaps_request arg)) as [a|] eqn:L;
    [|discriminate].
  intros H. injection H as <- <-.
  destruct (get_id _ _ _ Hget) as [Hid _].
  exists (gaps_request arg), a, (with_gaps p (encoded a)).
  split; [reflexivity|]. split; [exact L|].
  assert (Hid' : Models.id (with_gaps p (encoded a)) = paper_id).
  { unfold with_gaps.
    destruct (Routes.cut_first _ _) as [[x y]|]; exact Hid. }
  split; [exact (get_updated _ _ p _ Hget Hid')|].
  split; [reflexivity|].
  unfold with_gaps. rewrite occurs_cut_first.
  destruct (Routes.cut_first (lit "Future Work:") (encoded a))
    as [[before after]|] eqn:C.
  - left. exists before, after.
    destruct (cut_first_spec _ _ _ _ C) as [E Hocc].
    split; [exact E|]. split; [apply Hocc; discriminate|].
    split; reflexivity.
  - right. repeat split.
Qed.

Lemma gaps_split_witness :
  exists body w1,
    Routes.gaps_paper example_service 1 summarized_world =
    (Routes.Done body, w1)
    /\ exists req answer p1,
         Routes.sent w1 = Routes.sent summarized_world ++ [req]
         /\ example_service (Routes.sent summarized_world) req = Some answer
         /\ Routes.get 1 (Routes.rows w1) = Some p1
         /\ body = gaps_json p1
         /\ ((exists before after,
                encoded answer = before ++ lit "Future Work:" ++ after
                /\ Routes.occurs (lit "Future Work:") before = false
                /\ Models.gaps p1 = Some before
                /\ Models.future_work p1 = Some (strip after))
             \/ (Routes.occurs (lit "Future Work:") (encoded answer) = false
                 /\ Models.gaps p1 = Some (encoded answer)
                 /\ Models.future_work p1 =
                    Some (lit "Future directions: Explore multimodal extensions."))).
Proof.
  assert (H : exists body w1,
            Routes.gaps_paper example_service 1 summarized_world =
            (Routes.Done body, w1))
    by (eexists; eexists; vm_compute; reflexivity).
  destruct H as (body & w1 & H). exists body, w1. split; [exact H|].
  exact (gaps_split example_service 1 summarized_world w1
           (Routes.set_summary example_row (lit "S") (lit "F")) body
           eq_refl eq_refl H).
Defined.

Lemma summarize_rows (llm : Routes.service) (paper_id : nat) (w : Routes.world) :
  Routes.rows (snd (Routes.summarize_paper llm paper_id w)) = Routes.rows w
  \/ exists p a1 a2,
       Routes.get paper_id (Routes.rows w) = Some p
       /\ Routes.rows (snd (Routes.summarize_paper llm paper_id w)) =
          updated (Routes.set_summary p (encoded a1) (encoded a2))
                  (Routes.rows w).
Proof.
  rewrite summarize_run.
  destruct (Routes.get paper_id (Routes.rows w)) as [p|]; [|left; reflexivity].
  destruct (Routes.truthy (Models.summary p)); [left; reflexivity|].
  destruct (Models.full_text p) as [ft|]; [|left; reflexivity].
  cbv zeta. destruct (llm _ _) as [a1|]; [|left; reflexivity].
  destruct (llm _ _) as [a2|]; [|left; reflexivity].
  right. exists p, a1, a2. split; reflexivity.
Qed.

Lemma gaps_rows (llm : Routes.service) (paper_id : nat) (w : Routes.world) :
  Routes.rows (snd (Routes.gaps_paper llm paper_id w)) = Routes.rows w
  \/ exists p a,
       Routes.get paper_id (Routes.rows w) = Some p
       /\ Routes.rows (snd (Routes.gaps_paper llm paper_id w)) =
          updated (with_gaps p (encoded a)) (Routes.rows w).
Proof.
  rewrite gaps_run.
  destruct (Routes.get paper_id (Routes.rows w)) as [p|]; [|left; reflexivity].
  destruct (Routes.truthy (Models.gaps p)); [left; reflexivity|].
  destruct (Models.summary p) as [s|]; [|left; reflexivity].
  destruct (gaps_argument s (Models.abstract p)) as [arg|];
    [|left; reflexivity].
  cbv zeta. destruct (llm _ _) as [a|]; [|left; reflexivity].
  right. exists p, a. split; reflexivity.
Qed.

Lemma keeps_source_same (paper_id : nat) (w w1 : Routes.world) :
  Routes.rows w1 = Routes.rows w -> keeps_source paper_id w w1.
Proof.
  intros E. unfold keeps_source. rewrite E.
  split; [reflexivity|]. split; [reflexivity|].
  intros p Hp. exists p. split; [exact Hp|]. repeat split.
Qed.

Lemma keeps_source_updated (paper_id : nat) (w w1 : Routes.world)
    (p p' : Models.Paper) :
  Routes.get paper_id (Routes.rows w) = Some p ->
  same_source p p' ->
  Routes.rows w1 = updated p' (Routes.rows w) ->
  keeps_source paper_id w w1.
Proof.
  intros Hget Hsame E. unfold keeps_source. rewrite E.
  destruct (get_id _ _ _ Hget) as [Hid _].
  assert (Hid' : Models.id p' = paper_id)
    by (destruct Hsame as [<- _]; exact Hid).
  split; [apply updated_ids|]. split.
  - intros other Hne. apply get_updated_other. congruence.
  - intros q Hq. rewrite Hget in Hq. inversion Hq; subst q.
    exists p'. split; [exact (get_updated _ _ p p' Hget Hid') | exact Hsame].
Qed.

Lemma same_source_with_gaps (p : Models.Paper) (text : str) :
  same_source p (with_gaps p text).
Proof.
  unfold with_gaps. destruct (Routes.cut_first _ _) as [[a b]|];
    repeat split.
Qed.

(** X12. The two routes change no id and no paper under another id, and
    the paper they work on keeps its title, authors, abstract, full text
    and path. *)
Theorem routes_keep_source (llm : Routes.service) (paper_id : nat)
    (w : Routes.world) :
  keeps_source paper_id w (snd (Routes.summarize_paper llm paper_id w))
  /\ keeps_source paper_id w (snd (Routes.gaps_paper llm paper_id w)).
Proof.
  split.
  - destruct (summarize_rows llm paper_id w) as [E|(p & a1 & a2 & Hget & E)].
    + apply keeps_source_same, E.
    + apply (keeps_source_updated _ _ _ p
               (Routes.set_summary p (encoded a1) (encoded a2)) Hget);
        [|exact E].
      repeat split.
  - destruct (gaps_rows llm paper_id w) as [E|(p & a & Hget & E)].
    + apply keeps_source_same, E.
    + apply (keeps_source_updated _ _ _ p (with_gaps p (encoded a)) Hget);
        [|exact E].
      apply same_source_with_gaps.
Qed.

Lemma encoded_clean (answer : str) : ~ In NL (encoded answer).
Proof. exact (replace_nl_clean answer). Qed.

Lemma updated_forall (P : Models.Paper -> Prop) (p' : Models.Paper)
    (table : list Models.Paper) :
  Forall P table -> P p' -> Forall P (updated p' table).
Proof.
  intros H Hp. unfold updated. apply Forall_map.
  eapply Forall_impl; [|exact H]. intros q Hq.
  destruct (Models.id q =? Models.id p'); assumption.
Qed.

Lemma encoded_with_gaps (p : Models.Paper) (answer : str) :
  encoded_row p -> encoded_row (with_gaps p (encoded answer)).
Proof.
  intros (Hs & Hk & _ & _). unfold with_gaps.
  pose proof (encoded_clean answer) as Hc.
  destruct (Routes.cut_first (lit "Future Work:") (encoded answer))
    as [[before after]|] eqn:C.
  - destruct (cut_first_spec _ _ _ _ C) as [E _]. rewrite E in Hc.
    split; [exact Hs|]. split; [exact Hk|]. split; cbn.
    + intros H. apply Hc. apply in_or_app. left. exact H.
    + intros H. apply strip_chars in H. apply Hc.
      apply in_or_app. right. apply in_or_app. right. exact H.
  - split; [exact Hs|]. split; [exact Hk|]. split; cbn; [exact Hc|].
    intros H. repeat destruct H as [H|H]; try discriminate H. exact H.
Qed.

(** X13. What the routes store from answers of the service holds no
    newline: if no summary, key findings, gaps or future work of the table
    holds one before a request, none does after it. *)
Theorem routes_keep_encoded (llm : Routes.service) (paper_id : nat)
    (w : Routes.world) :
  Forall encoded_row (Routes.rows w) ->
  Forall encoded_row (Routes.rows (snd (Routes.summarize_paper llm paper_id w)))
  /\ Forall encoded_row (Routes.rows (snd (Routes.gaps_paper llm paper_id w))).
Proof.
  intros H.
  assert (Hrow : forall p, Routes.get paper_id (Routes.rows w) = Some p ->
                           encoded_row p).
  { intros p Hp. destruct (get_id _ _ _ Hp) as [_ Hin].
    rewrite Forall_forall in H. exact (H p Hin). }
  split.
  - destruct (summarize_rows llm paper_id w) as [E|(p & a1 & a2 & Hget & E)];
      rewrite E; [exact H|].
    apply updated_forall; [exact H|].
    destruct (Hrow p Hget) as (_ & _ & Hg & Hf).
    repeat split; try assumption; apply encoded_clean.
  - destruct (gaps_rows llm paper_id w) as [E|(p & a & Hget & E)];
      rewrite E; [exact H|].
    apply updated_forall; [exact H|].
    apply encoded_with_gaps, Hrow, Hget.
Qed.

Lemma routes_keep_encoded_witness :
  Forall encoded_row
    (Routes.rows (snd (Routes.summarize_paper example_service 1 example_world)))
  /\ Forall encoded_row
       (Routes.rows (snd (Routes.gaps_paper example_service 1 example_world))).
Proof.
  apply (routes_keep_encoded example_service 1 example_world).
  constructor; [|constructor]. repeat split.
Defined.

(** X14. Whatever the length of the text, [generate_summary] sends one
    request, and its prompt has at most 3266 characters: the template and
    at most 3000 characters of text. *)
Theorem summary_prompt_bounded (llm : Routes.service) (text : str)
    (w : Routes.world) :
  exists req,
    Routes.sent (snd (Routes.generate_summary llm text w)) =
    Routes.sent w ++ [req]
    /\ length (Routes.content req) <= 3266.
Proof.
  exists (summary_request text). split.
  - unfold Routes.generate_summary, Routes.and_then, Routes.create.
    fold (summary_request text).
    destruct (llm (Routes.sent w) (summary_request text)); reflexivity.
  - unfold summary_request, Routes.prompt_text. cbn [Routes.content].
    rewrite !length_app.
    change (length Routes.summary_prompt_head) with 261.
    change (length Routes.prompt_tail) with 5.
    pose proof (firstn_le_length 3000
                  (replace (lit "&nbsp;&nbsp;") (lit " ")
                     (replace (lit "<br>") [NL] text))) as H.
    lia.
Qed.
